(** * Element Context Capture: the record sanitizer and the TTL store

    A shallow embedding of [mcp-server/src/schema.js] (validation,
    sanitization, summaries), [mcp-server/src/storage.js] (class
    [ElementStorage]), [mcp-server/src/websocket-server.js] and the
    request handlers of [mcp-server/src/mcp-server.js], with the
    properties of the storage/eviction engine and of the handlers stated
    over it.

    Conventions of the embedding.
    - A JavaScript string is a [string]: a sequence of code units, here the
      code units below 256.  [toLowerCase] is the Unicode lower-casing
      restricted to that range.
    - A JavaScript number is an integer [Z] (epoch milliseconds, lengths).
    - The properties of a captured element that the code reads hold what
      [JSON.parse] delivers: a primitive, or an array or object.  Of an
      array or object in such a property the code reads [length] and the
      string it becomes in a template literal, and nothing else, so it
      is given by these; the attribute object, into which the code
      writes, is a reference to an object of the heap.
    - [Date.now()] is an explicit argument [now] of every operation reading
      the clock.
    - Objects that the code mutates through a shared reference (the
      [attributes] object of a captured element) live in a heap and are
      named by a location; a spread copy [{ ...element }] copies the
      top-level fields and therefore the references, not the objects.
    - The [Map] of the store is an association list in insertion order.
    - A thrown exception is the [Throw] case of [result]. *)

From Stdlib Require Import ZArith Ascii String.
From stdpp Require Import base option list gmap strings sorting pretty.

Local Open Scope string_scope.

(** ** JavaScript strings *)

Module JsString.

Definition code (c : ascii) : N := N_of_ascii c.

Definition in_range (lo hi n : N) : bool := ((lo <=? n) && (n <=? hi))%N.

(** Lower-casing of the ASCII letters only: the case folding a regular
    expression with the [i] flag applies to an ASCII letter of the
    pattern. *)
Definition lower_ascii (c : ascii) : ascii :=
  if in_range 65 90 (code c) then ascii_of_N (code c + 32) else c.

(** [String.prototype.toLowerCase] on one code unit below 256: A-Z, and
    the Latin-1 capitals U+00C0..U+00DE except the multiplication sign
    U+00D7. *)
Definition lower_char (c : ascii) : ascii :=
  let n := code c in
  if in_range 65 90 n || (in_range 192 222 n && negb (n =? 215)%N)
  then ascii_of_N (n + 32) else c.

Fixpoint toLowerCase (s : string) : string :=
  match s with
  | EmptyString => EmptyString
  | String c s' => String (lower_char c) (toLowerCase s')
  end.

(** [s.startsWith(t)] *)
Definition startsWith (s t : string) : bool := String.prefix t s.

(** [s.includes(t)] *)
Fixpoint includes (s t : string) : bool :=
  String.prefix t s ||
  match s with
  | EmptyString => false
  | String _ s' => includes s' t
  end.

(** [s.length] *)
Definition str_length (s : string) : Z := Z.of_nat (String.length s).

Fixpoint take (n : nat) (s : string) : string :=
  match n, s with
  | S k, String c s' => String c (take k s')
  | _, _ => EmptyString
  end.

(** [s.substring(0, n)] *)
Definition substring0 (n : Z) (s : string) : string := take (Z.to_nat n) s.

Fixpoint drop (n : nat) (s : string) : string :=
  match n, s with
  | S k, String _ s' => drop k s'
  | _, _ => s
  end.

(** A string of [n] copies of [c]. *)
Fixpoint replicate (n : nat) (c : ascii) : string :=
  match n with
  | O => EmptyString
  | S k => String c (replicate k c)
  end.

End JsString.

(** ** The two regular expressions of [sanitizeElement]

    Both are used as [html.replace(re, '')] with the flags [gi]: every
    match, found left to right and without overlap, is deleted.  Each
    matcher below returns the number of code units of the match that starts
    at the head of its argument, if there is one. *)

Module Regex.
Import JsString.

Definition dquote : ascii := "034"%char.

(** [\w] *)
Definition is_word (c : ascii) : bool :=
  let n := code c in
  in_range 48 57 n || in_range 65 90 n || in_range 97 122 n || (n =? 95)%N.

(** [\s], on code units below 256: tab, line feed, vertical tab, form
    feed, carriage return, space, no-break space. *)
Definition is_space (c : ascii) : bool :=
  let n := code c in
  in_range 9 13 n || (n =? 32)%N || (n =? 160)%N.

(** A literal of the pattern, written in lower case, matched at the head
    of [s] ignoring the case of ASCII letters. *)
Fixpoint ci_prefix (pat s : string) : bool :=
  match pat, s with
  | EmptyString, _ => true
  | String p pat', String c s' =>
      if decide (lower_ascii c = p) then ci_prefix pat' s' else false
  | String _ _, EmptyString => false
  end.

(** The length of the longest prefix of [s] made of code units in [P]:
    a greedy [P*] whose continuation cannot start with a unit of [P]. *)
Fixpoint span (P : ascii -> bool) (s : string) : nat :=
  match s with
  | String c s' => if P c then S (span P s') else O
  | EmptyString => O
  end.

(** The tail of the script pattern: a greedy run of units other than
    [<], then any number of groups made of a [<] that does not open the
    closing tag followed by another such run, then the closing tag
    [</script>].  A run always stops at a [<] or at the end of the input,
    and a group is entered exactly when the closing tag is not at the
    head, so the match runs up to and including the first closing
    tag. *)
Fixpoint close_len (s : string) : option nat :=
  if ci_prefix "</script>" s then Some 9%nat
  else match s with
       | EmptyString => None
       | String _ s' => S <$> close_len s'
       end.

(** [\b] between the [t] of [<script] and what follows. *)
Definition boundary (s : string) : bool :=
  match s with
  | EmptyString => true
  | String c _ => negb (is_word c)
  end.

(** The script pattern: the literal [<script], a word boundary, then
    the tail above. *)
Definition match_script (s : string) : option nat :=
  if ci_prefix "<script" s then
    let r := drop 7 s in
    if boundary r then (fun k => 7 + k)%nat <$> close_len r else None
  else None.

(** The event-handler pattern: one white-space unit, the literal [on],
    one or more word units, an equals sign, a double quote, a greedy run
    of units other than the double quote, and a double quote. *)
Definition match_handler (s : string) : option nat :=
  match s with
  | String c0 r0 =>
      if is_space c0 && ci_prefix "on" r0 then
        let r1 := drop 2 r0 in
        let w := span is_word r1 in
        match w with
        | O => None
        | S _ =>
            match drop w r1 with
            | String e (String q r3) =>
                if decide (e = "="%char) then
                  if decide (q = dquote) then
                    let v := span (fun c => negb (bool_decide (c = dquote))) r3 in
                    match drop v r3 with
                    | String _ _ => Some (1 + 2 + w + 2 + v + 1)%nat
                    | EmptyString => None
                    end
                  else None
                else None
            | _ => None
            end
        end
      else None
  | EmptyString => None
  end.

(** [s.replace(re, '')] with the [g] flag; [skip] counts the code units
    of the current match still to be dropped. *)
Fixpoint remove_from (re : string -> option nat) (skip : nat) (s : string) : string :=
  match s with
  | EmptyString => EmptyString
  | String c s' =>
      match skip with
      | S k => remove_from re k s'
      | O =>
          match re s with
          | Some n => remove_from re (Nat.pred n) s'
          | None => String c (remove_from re 0 s')
          end
      end
  end.

Definition remove_all (re : string -> option nat) (s : string) : string :=
  remove_from re 0 s.

End Regex.

(** ** JavaScript values, objects and exceptions *)

Definition loc := nat.

(** The values of the properties the code reads: the primitive values
    and, for an array or an object that the code does not look into,
    [PObject].  Such a value is truthy, its [typeof] is not ['string'] or
    ['number'], and it has none of the methods of a string, so calling
    one on it is a [TypeError].  [length] is the number that reading its
    [length] gives, [None] when it has none ([undefined > n] is false for
    every [n]); [shown] is the string it becomes in a template
    literal. *)
Inductive prim :=
| PUndefined
| PNull
| PBool (b : bool)
| PNumber (n : Z)
| PString (s : string)
| PObject (length : option Z) (shown : string).

(** A value is one of the above or a reference to an object of the
    heap: an object whose properties the code enumerates, reads or
    writes is a reference. *)
Inductive value :=
| VPrim (p : prim)
| VRef (l : loc).

#[global] Instance prim_eq_dec : EqDecision prim.
Proof. solve_decision. Defined.

#[global] Instance value_eq_dec : EqDecision value.
Proof. solve_decision. Defined.

(** A plain object with string keys, and the heap of such objects. *)
Abbreviation object := (gmap string value).
Abbreviation heap := (gmap loc (gmap string value)).

Inductive error := TypeError.

Inductive result (A : Type) :=
| Ok (a : A)
| Throw (e : error).
Arguments Ok {A} a.
Arguments Throw {A} e.

#[global] Instance result_ret : MRet result := fun _ a => Ok a.

#[global] Instance result_bind : MBind result := fun _ _ k r =>
  match r with
  | Ok a => k a
  | Throw e => Throw e
  end.

(** [ToBoolean] *)
Definition truthy (p : prim) : bool :=
  match p with
  | PUndefined | PNull => false
  | PBool b => b
  | PNumber n => negb (n =? 0)%Z
  | PString s => negb (bool_decide (s = ""))
  | PObject _ _ => true
  end.

(** Reading a property that may be absent: [undefined] when it is. *)
Definition prop (o : option prim) : prim := default PUndefined o.

(** ** [schema.js] *)

Module Schema.
Import JsString Regex.

(** A captured element as the code receives it: each property is present
    or not, and a present property holds a primitive, an array or an
    object.  An object in [attributes] is a reference to the heap ([PObject]
    there stands for an array or object none of whose keys is
    sensitive); [rest] collects the properties the sanitizer and the
    store never look at ([computed], [bounds], [context]). *)
Record CapturedElement := {
  id : option prim;
  timestamp : option prim;
  url : option prim;
  selector : option prim;
  html : option prim;
  text : option prim;
  attributes : option value;
  screenshot : option prim;
  _screenshotTruncated : option prim;
  rest : gmap string value
}.

(** The argument of [validateCapturedElement] and [add]: anything.  An
    object is given by its properties, as [AObject]; an array has none
    of the required ones. *)
Inductive any :=
| APrim (p : prim)
| AObject (e : CapturedElement).

Definition is_string (p : prim) : bool :=
  match p with PString _ => true | _ => false end.

Definition is_number (p : prim) : bool :=
  match p with PNumber _ => true | _ => false end.

(** [x <= 0] on a number. *)
Definition le_zero (p : prim) : bool :=
  match p with PNumber n => (n <=? 0)%Z | _ => false end.

(** [s.startsWith('http')] on a string. *)
Definition starts_http (p : prim) : bool :=
  match p with PString s => startsWith s "http" | _ => false end.

(** The loop over [required]: every one of the six names is a property
    of [data]. *)
Definition has_required (data : CapturedElement) : bool :=
  forallb (fun present => present)
    [ bool_decide (is_Some (id data)); bool_decide (is_Some (timestamp data));
      bool_decide (is_Some (url data)); bool_decide (is_Some (selector data));
      bool_decide (is_Some (html data)); bool_decide (is_Some (text data)) ].

Definition validateCapturedElement (data : any) : bool :=
  match data with
  | APrim _ => false
  | AObject data =>
      if negb (has_required data) then false
      else if negb (is_string (prop (id data))) || negb (truthy (prop (id data))) then false
      else if negb (is_number (prop (timestamp data))) || le_zero (prop (timestamp data)) then false
      else if negb (is_string (prop (url data))) || negb (starts_http (prop (url data))) then false
      else if negb (is_string (prop (selector data))) || negb (truthy (prop (selector data))) then false
      else true
  end.

Definition set_html (e : CapturedElement) (v : prim) : CapturedElement :=
  {| id := id e; timestamp := timestamp e; url := url e; selector := selector e;
     html := Some v; text := text e; attributes := attributes e;
     screenshot := screenshot e; _screenshotTruncated := _screenshotTruncated e;
     rest := rest e |}.

Definition set_text (e : CapturedElement) (v : prim) : CapturedElement :=
  {| id := id e; timestamp := timestamp e; url := url e; selector := selector e;
     html := html e; text := Some v; attributes := attributes e;
     screenshot := screenshot e; _screenshotTruncated := _screenshotTruncated e;
     rest := rest e |}.

Definition set_screenshot (e : CapturedElement) (v : prim) : CapturedElement :=
  {| id := id e; timestamp := timestamp e; url := url e; selector := selector e;
     html := html e; text := text e; attributes := attributes e;
     screenshot := Some v; _screenshotTruncated := _screenshotTruncated e;
     rest := rest e |}.

Definition set_screenshotTruncated (e : CapturedElement) (v : prim) : CapturedElement :=
  {| id := id e; timestamp := timestamp e; url := url e; selector := selector e;
     html := html e; text := text e; attributes := attributes e;
     screenshot := screenshot e; _screenshotTruncated := Some v;
     rest := rest e |}.

Definition MAX_HTML_SIZE : Z := 50000.
Definition MAX_TEXT_SIZE : Z := 10000.
Definition MAX_SCREENSHOT_SIZE : Z := 1000000.
Definition TRUNCATED : string := "... [TRUNCATED]".
Definition REDACTED : value := VPrim (PString "[REDACTED]").
Definition sensitiveAttrs : list string :=
  ["password"; "token"; "secret"; "key"; "auth"].

(** The two [replace] calls on [html], in the order of the code. *)
Definition scrub (s : string) : string :=
  remove_all match_handler (remove_all match_script s).

(** [sensitiveAttrs.some(s => attr.toLowerCase().includes(s))] *)
Definition sensitive (attr : string) : bool :=
  existsb (fun s => includes (toLowerCase attr) s) sensitiveAttrs.

(** The [for ... in] loop over the attribute object: an assignment to
    the visited key of that same object. *)
Definition redact (o : object) : object :=
  map_fold (fun attr _ acc => if sensitive attr then <[attr := REDACTED]> acc else acc) o o.

(** [p.length > max], where [p] is truthy: a number or a boolean has no
    [length], and [undefined > max] is false; an array or object is as
    long as its [length] says. *)
Definition longer_than (max : Z) (p : prim) : bool :=
  match p with
  | PString s => (max <? str_length s)%Z
  | PObject (Some n) _ => (max <? n)%Z
  | _ => false
  end.

(** [p.substring(0, max) + '... [TRUNCATED]']: what is not a string has
    no [substring]. *)
Definition truncate (max : Z) (p : prim) : result prim :=
  match p with
  | PString s => Ok (PString (substring0 max s ++ TRUNCATED))
  | _ => Throw TypeError
  end.

(** [sanitizeElement]: the heap as the call leaves it, and the new
    object [sanitized] or the exception.  The heap changes where the
    code writes through the shared reference [sanitized.attributes], and
    an exception thrown after that leaves the heap changed.  When
    [attributes] is absent or is not a reference, the [for ... in] loop
    writes nothing: a falsy value skips it, a number or a boolean has no
    enumerable key, and the keys of a string are its indices, which are
    not sensitive. *)
Definition sanitizeElement (h : heap) (element : CapturedElement)
  : heap * result CapturedElement :=
  let sanitized := element in
  match
    (if truthy (prop (html sanitized)) then
       match prop (html sanitized) with
       | PString s => Ok (set_html sanitized (PString (scrub s)))
       | _ => Throw TypeError
       end
     else Ok sanitized)
  with
  | Throw e => (h, Throw e)
  | Ok sanitized =>
      let h :=
        match attributes sanitized with
        | Some (VRef l) =>
            match h !! l with
            | Some o => <[l := redact o]> h
            | None => h
            end
        | _ => h
        end in
      (h,
       sanitized ←
         (if truthy (prop (html sanitized))
             && longer_than MAX_HTML_SIZE (prop (html sanitized))
          then v ← truncate MAX_HTML_SIZE (prop (html sanitized));
               Ok (set_html sanitized v)
          else Ok sanitized);
       sanitized ←
         (if truthy (prop (text sanitized))
             && longer_than MAX_TEXT_SIZE (prop (text sanitized))
          then v ← truncate MAX_TEXT_SIZE (prop (text sanitized));
               Ok (set_text sanitized v)
          else Ok sanitized);
       let sanitized :=
         if truthy (prop (screenshot sanitized))
            && longer_than MAX_SCREENSHOT_SIZE (prop (screenshot sanitized))
         then set_screenshotTruncated (set_screenshot sanitized (PString "")) (PBool true)
         else sanitized in
       Ok sanitized)
  end.

End Schema.

(** ** [storage.js] *)

Module Storage.
Import JsString Schema.

Record entry := { data : CapturedElement; expiresAt : Z }.

(** A [Map]: keys compared by value, entries kept in insertion order.
    The keys of the store are the [id]s of records that passed
    validation, which are strings; an array or object asked for as a key
    is none of them. *)
Abbreviation jsmap := (list (prim * entry)).

Definition keys (m : jsmap) : list prim := m.*1.

(** [m.get(k)] *)
Fixpoint map_get (k : prim) (m : jsmap) : option entry :=
  match m with
  | [] => None
  | (k', v) :: m' => if decide (k' = k) then Some v else map_get k m'
  end.

(** [m.delete(k)]: the map without [k], and whether [k] was there. *)
Definition map_delete (k : prim) (m : jsmap) : jsmap :=
  filter (fun kv => kv.1 <> k) m.

Definition map_has (k : prim) (m : jsmap) : bool :=
  bool_decide (is_Some (map_get k m)).

(** [m.set(k, v)]: a key already present keeps its place and takes the
    new value, a new key goes to the end. *)
Fixpoint map_set (k : prim) (v : entry) (m : jsmap) : jsmap :=
  match m with
  | [] => [(k, v)]
  | (k', v') :: m' =>
      if decide (k' = k) then (k, v) :: m' else (k', v') :: map_set k v m'
  end.

(** [m.keys().next().value]: the first key, [undefined] on an empty
    map. *)
Definition first_key (m : jsmap) : prim :=
  match m with
  | [] => PUndefined
  | (k, _) :: _ => k
  end.

(** What the process holds besides the store: the objects shared with
    the callers and the interval timers that are running. *)
Record world := { objects : heap; timers : gset nat }.

Record ElementStorage := {
  elements : jsmap;
  maxElements : nat;
  ttl : Z;
  cleanupInterval : Z;
  cleanupTimer : option nat
}.

Definition with_elements (this : ElementStorage) (m : jsmap) : ElementStorage :=
  {| elements := m; maxElements := maxElements this; ttl := ttl this;
     cleanupInterval := cleanupInterval this; cleanupTimer := cleanupTimer this |}.

Record options := {
  opt_maxElements : option nat;
  opt_ttl : option Z;
  opt_cleanupInterval : option Z
}.

(** [x || d] on an optional number. *)
Definition or_nat (x : option nat) (d : nat) : nat :=
  match x with
  | Some (S n) => S n
  | _ => d
  end.

Definition or_Z (x : option Z) (d : Z) : Z :=
  match x with
  | Some n => if (n =? 0)%Z then d else n
  | None => d
  end.

(** [new ElementStorage(options)]: [setInterval] starts a timer. *)
Definition constructor (w : world) (o : options) : world * ElementStorage :=
  let t := fresh (timers w) in
  ({| objects := objects w; timers := {[t]} ∪ timers w |},
   {| elements := [];
      maxElements := or_nat (opt_maxElements o) 50;
      ttl := or_Z (opt_ttl o) 3600000;
      cleanupInterval := or_Z (opt_cleanupInterval o) 300000;
      cleanupTimer := Some t |}).

(** [add(element)] at time [now].  An exception of [sanitizeElement]
    leaves [add] before the map is touched; what [sanitizeElement] has
    written to the attribute object by then stays written. *)
Definition add (now : Z) (element : any) (w : world) (this : ElementStorage)
  : world * ElementStorage * result bool :=
  if negb (validateCapturedElement element) then (w, this, Ok false)
  else
    match element with
    | APrim _ => (w, this, Ok false)
    | AObject element =>
        match sanitizeElement (objects w) element with
        | (h, Throw e) => ({| objects := h; timers := timers w |}, this, Throw e)
        | (h, Ok sanitized) =>
            let m :=
              if decide (maxElements this <= length (elements this))
              then map_delete (first_key (elements this)) (elements this)
              else elements this in
            let m :=
              map_set (prop (id sanitized))
                {| data := sanitized; expiresAt := now + ttl this |} m in
            ({| objects := h; timers := timers w |}, with_elements this m, Ok true)
        end
    end.

(** [get(id)] at time [now]; [None] is [null]. *)
Definition get (now : Z) (id : prim) (this : ElementStorage)
  : ElementStorage * option CapturedElement :=
  match map_get id (elements this) with
  | None => (this, None)
  | Some entry =>
      if (expiresAt entry <? now)%Z
      then (with_elements this (map_delete id (elements this)), None)
      else (this, Some (data entry))
  end.

(** The comparator [(a, b) => b.timestamp - a.timestamp]; a stored
    element passed validation, so its [timestamp] is a number. *)
Definition timestamp_of (e : CapturedElement) : Z :=
  match prop (timestamp e) with
  | PNumber n => n
  | _ => 0
  end.

Definition compare (a b : CapturedElement) : Z := timestamp_of b - timestamp_of a.

(** [Array.prototype.sort] is stable: elements that compare equal keep
    their order.  [x], which stood before all of [l], goes before the
    first element it does not have to follow. *)
Fixpoint insert_sorted (x : CapturedElement) (l : list CapturedElement)
  : list CapturedElement :=
  match l with
  | [] => [x]
  | y :: l' => if (compare x y <=? 0)%Z then x :: l else y :: insert_sorted x l'
  end.

Fixpoint sort (l : list CapturedElement) : list CapturedElement :=
  match l with
  | [] => []
  | x :: l' => insert_sorted x (sort l')
  end.

(** One turn of the loop of [getAll] over the entries of the map. *)
Definition getAll_step (now : Z) (acc : jsmap * list CapturedElement)
  (kv : prim * entry) : jsmap * list CapturedElement :=
  if (expiresAt kv.2 <? now)%Z
  then (map_delete kv.1 acc.1, acc.2)
  else (acc.1, (acc.2 ++ [data kv.2])%list).

Definition getAll (now : Z) (this : ElementStorage)
  : ElementStorage * list CapturedElement :=
  let r := foldl (getAll_step now) (elements this, []) (elements this) in
  (with_elements this r.1, sort r.2).

(** [remove(id)] *)
Definition remove (id : prim) (this : ElementStorage) : ElementStorage * bool :=
  (with_elements this (map_delete id (elements this)), map_has id (elements this)).

(** [clear()] *)
Definition clear (this : ElementStorage) : ElementStorage :=
  with_elements this [].

(** [p.toLowerCase().includes(q)]: a [TypeError] unless [p] is a
    string. *)
Definition lower_includes (p : prim) (q : string) : result bool :=
  match p with
  | PString s => Ok (includes (toLowerCase s) q)
  | _ => Throw TypeError
  end.

(** The predicate of the [filter] in [search], with the short circuit
    of [||]. *)
Definition matches (lowerQuery : string) (element : CapturedElement) : result bool :=
  b ← lower_includes (prop (selector element)) lowerQuery;
  if b : bool then Ok true else
  b ← lower_includes (prop (text element)) lowerQuery;
  if b : bool then Ok true else
  b ← lower_includes (prop (html element)) lowerQuery;
  if b : bool then Ok true else
  lower_includes (prop (url element)) lowerQuery.

(** [Array.prototype.filter] with a predicate that may throw. *)
Fixpoint filter_result {A} (f : A -> result bool) (l : list A) : result (list A) :=
  match l with
  | [] => Ok []
  | x :: l' =>
      b ← f x;
      r ← filter_result f l';
      Ok (if b : bool then x :: r else r)
  end.

(** [search(query)] at time [now]. *)
Definition search (now : Z) (query : string) (this : ElementStorage)
  : ElementStorage * result (list CapturedElement) :=
  let lowerQuery := toLowerCase query in
  let r := getAll now this in
  (r.1, filter_result (matches lowerQuery) r.2).

(** [cleanup()], the body of the timer, at time [now]. *)
Definition cleanup (now : Z) (this : ElementStorage) : ElementStorage :=
  with_elements this
    (foldl (fun m kv => if (expiresAt kv.2 <? now)%Z then map_delete kv.1 m else m)
       (elements this) (elements this)).

(** [destroy()] *)
Definition destroy (w : world) (this : ElementStorage) : world * ElementStorage :=
  let r :=
    match cleanupTimer this with
    | Some t =>
        ({| objects := objects w; timers := timers w ∖ {[t]} |},
         {| elements := elements this; maxElements := maxElements this;
            ttl := ttl this; cleanupInterval := cleanupInterval this;
            cleanupTimer := None |})
    | None => (w, this)
    end in
  (r.1, clear r.2).

End Storage.

(** ** [schema.js], continued: [summarizeElement] *)

Module Summary.
Import JsString Schema.

(** The object literal returned by [summarizeElement]: every property
    is there, [undefined] standing for a property the element lacks. *)
Record summary := {
  sum_id : prim;
  sum_timestamp : prim;
  sum_url : prim;
  sum_selector : prim;
  sum_text : prim;
  sum_bounds : option value;
  hasScreenshot : bool
}.

(** [element.text?.substring(0, 100) || '']: the optional chain stops on
    [undefined] and [null] only; a number, a boolean, an array or an
    object has no [substring], and calling it is a [TypeError]. *)
Definition text_excerpt (p : prim) : result prim :=
  match p with
  | PUndefined | PNull => Ok (PString "")
  | PString s =>
      let t := PString (substring0 100 s) in
      Ok (if truthy t then t else PString "")
  | PBool _ | PNumber _ | PObject _ _ => Throw TypeError
  end.

Definition summarizeElement (element : CapturedElement) : result summary :=
  t ← text_excerpt (prop (text element));
  Ok {| sum_id := prop (id element);
        sum_timestamp := prop (timestamp element);
        sum_url := prop (url element);
        sum_selector := prop (selector element);
        sum_text := t;
        sum_bounds := rest element !! "bounds";
        hasScreenshot := truthy (prop (screenshot element)) |}.


End Summary.

(** ** [storage.js], continued: [getStats] *)

Module Stats.
Import Schema Storage.

Record stats := {
  total : nat;
  stats_maxElements : nat;
  stats_ttl : Z;
  oldestTimestamp : option Z;
  newestTimestamp : option Z
}.

(** [Math.min(...xs)] and [Math.max(...xs)] on a non-empty list of
    numbers; the code guards both with [elements.length > 0] and answers
    [null] otherwise. *)
Definition math_min (xs : list Z) : option Z :=
  match xs with
  | [] => None
  | x :: xs' => Some (foldl Z.min x xs')
  end.

Definition math_max (xs : list Z) : option Z :=
  match xs with
  | [] => None
  | x :: xs' => Some (foldl Z.max x xs')
  end.

(** [getStats()] at time [now]. *)
Definition getStats (now : Z) (this : ElementStorage) : ElementStorage * stats :=
  let r := getAll now this in
  let elements := r.2 in
  (r.1,
   {| total := length elements;
      stats_maxElements := maxElements this;
      stats_ttl := ttl this;
      oldestTimestamp := math_min (timestamp_of <$> elements);
      newestTimestamp := math_max (timestamp_of <$> elements) |}).

End Stats.

(** ** [websocket-server.js] *)

Module WebSocketServer.
Import JsString Schema Storage Stats.

(** A connection is named by a number.  Its [readyState] belongs to the
    network and changes under the server; what the server sends on it is
    appended to [outbox], the oldest message first. *)
Definition sock := nat.

Inductive ready := CONNECTING | OPEN | CLOSING | CLOSED.

#[global] Instance ready_eq_dec : EqDecision ready.
Proof. solve_decision. Defined.

(** What [handleMessage] catches: the [SyntaxError] of [JSON.parse] or an
    exception of the store. *)
Inductive exn :=
| SyntaxError
| Thrown (e : error).

(** The [error] string of an [ERROR] message, by what it is built
    from. *)
Inductive error_text :=
| UnknownMessageType (type : prim)
| FailedToStore
| ExceptionMessage (e : exn).

(** The messages the server sends, before [JSON.stringify]. *)
Inductive outmsg :=
| WELCOME (maxElements : nat) (ttl : Z)
| PONG (timestamp : Z)
| STATS (data : stats)
| ELEMENTS_LIST (elements : list CapturedElement)
| ELEMENT_REMOVED (id : prim)
| ALL_CLEARED
| ELEMENT_STORED (id selector timestamp : prim)
| ELEMENT_ADDED (id selector url : prim)
| ERROR (error : error_text).

(** What [JSON.parse(data.toString())] makes of the data received: it
    throws, or returns [null], or returns a value whose properties
    [type], [element] and [id] are read ([undefined] for a property that
    is not there, and for every property of a number, a string or a
    boolean). *)
Inductive inbound :=
| Unparsable
| ParsedNull
| Parsed (type : prim) (element : any) (id : prim).

Record net := {
  readyState : gmap sock ready;
  outbox : list (sock * outmsg)
}.

(** [this.clients] is a [Set], kept in insertion order; [this.wss] is
    the server object of the last call of [new WebSocketServer], named
    by its port. *)
Record server := {
  port : Z;
  wss : option Z;
  clients : list sock
}.

Definition DEFAULT_PORT : Z := 38100.
Definition FALLBACK_PORTS : list Z := [38101; 38102; 38103]%Z.

(** [new ExtensionWebSocketServer(storage, options)] *)
Definition constructor (options_port : option Z) : server :=
  {| port := or_Z options_port DEFAULT_PORT; wss := None; clients := [] |}.

(** What happens to [new WebSocketServer({ port })]: the constructor
    throws (it does on a port that is out of range), or it returns a
    server that then listens, or one that then emits an error,
    [EADDRINUSE] or another. *)
Inductive listen := Throws | Listening | AddrInUse | OtherError.

(** What becomes of the promise of [start]: an exception of the
    constructor rejects it when it is thrown in the executor of the
    promise, that is by the first call of [tryPort]; thrown by a later
    call, which runs in the [error] handler of the previous server, it
    settles nothing. *)
Inductive settled :=
| Resolved (port : Z)
| RejectedAllPortsInUse
| RejectedError
| RejectedThrown
| NeverSettled.

(** [tryPort(port, fallbackPorts)] inside [start]; [inExecutor] tells
    the first call from the later ones.  The server object is assigned
    to [this.wss] when the constructor returns, before anything is known
    of the port, and not when it throws. *)
Fixpoint tryPort (bind : Z -> listen) (inExecutor : bool) (this : server) (p : Z)
  (fallbackPorts : list Z) : server * settled :=
  let assigned := {| port := port this; wss := Some p; clients := clients this |} in
  match bind p with
  | Throws => (this, if inExecutor then RejectedThrown else NeverSettled)
  | Listening => (assigned, Resolved p)
  | AddrInUse =>
      match fallbackPorts with
      | nextPort :: fallbackPorts => tryPort bind false assigned nextPort fallbackPorts
      | [] => (assigned, RejectedAllPortsInUse)
      end
  | OtherError => (assigned, RejectedError)
  end.

(** [start()] *)
Definition start (bind : Z -> listen) (this : server) : server * settled :=
  tryPort bind true this (port this) FALLBACK_PORTS.

Definition is_open (n : net) (ws : sock) : bool :=
  bool_decide (readyState n !! ws = Some OPEN).

Definition send (ws : sock) (message : outmsg) (n : net) : net :=
  {| readyState := readyState n; outbox := (outbox n ++ [(ws, message)])%list |}.

(** [sendMessage(ws, message)] *)
Definition sendMessage (ws : sock) (message : outmsg) (n : net) : net :=
  if is_open n ws then send ws message n else n.

(** [broadcast(message, exclude)]; [None] is the default [null]. *)
Definition broadcast (message : outmsg) (exclude : option sock) (this : server) (n : net)
  : net :=
  foldl (fun n client =>
           if bool_decide (Some client <> exclude) && is_open n client
           then send client message n else n)
        n (clients this).

(** [this.clients.add(ws)] and [this.clients.delete(ws)] *)
Definition set_add (ws : sock) (l : list sock) : list sock :=
  if decide (ws ∈ l) then l else (l ++ [ws])%list.

Definition set_delete (ws : sock) (l : list sock) : list sock :=
  filter (fun c => c <> ws) l.

(** The state the handlers work on: the shared objects and timers, the
    store, the server and the network. *)
Record state := {
  st_world : world;
  storage : ElementStorage;
  this : server;
  network : net
}.

Definition with_network (s : state) (n : net) : state :=
  {| st_world := st_world s; storage := storage s; this := this s; network := n |}.

Definition with_storage (s : state) (store : ElementStorage) : state :=
  {| st_world := st_world s; storage := store; this := this s; network := network s |}.

(** The [connection] handler of [setupHandlers]. *)
Definition on_connection (ws : sock) (s : state) : state :=
  let srv := {| port := port (this s); wss := wss (this s);
                clients := set_add ws (clients (this s)) |} in
  {| st_world := st_world s; storage := storage s; this := srv;
     network := sendMessage ws (WELCOME (maxElements (storage s)) (ttl (storage s)))
                  (network s) |}.

(** The [close] handler of a connection. *)
Definition on_close (ws : sock) (s : state) : state :=
  {| st_world := st_world s; storage := storage s;
     this := {| port := port (this s); wss := wss (this s);
                clients := set_delete ws (clients (this s)) |};
     network := network s |}.

(** [handleElementCaptured(ws, element)] at time [now]: the exception of
    [add], if any, leaves before anything is sent, with the shared
    objects as [add] left them. *)
Definition handleElementCaptured (now : Z) (ws : sock) (element : any) (s : state)
  : state * result unit :=
  let r := add now element (st_world s) (storage s) in
  let s := {| st_world := r.1.1; storage := r.1.2; this := this s;
              network := network s |} in
  match r.2 with
  | Throw e => (s, Throw e)
  | Ok success =>
      if success then
        let field f := match element with
                       | AObject e => prop (f e)
                       | APrim _ => PUndefined
                       end in
        let n := sendMessage ws
                   (ELEMENT_STORED (field id) (field selector) (field timestamp))
                   (network s) in
        let n := broadcast (ELEMENT_ADDED (field id) (field selector) (field url))
                   (Some ws) (this s) n in
        (with_network s n, Ok ())
      else
        (with_network s (sendMessage ws (ERROR FailedToStore) (network s)), Ok ())
  end.

(** [handleMessage(ws, data, clientId)] at time [now]. *)
Definition handleMessage (now : Z) (ws : sock) (data : inbound) (s : state) : state :=
  let reply message s := with_network s (sendMessage ws message (network s)) in
  match data with
  | Unparsable => reply (ERROR (ExceptionMessage SyntaxError)) s
  | ParsedNull => reply (ERROR (ExceptionMessage (Thrown TypeError))) s
  | Parsed type element id =>
      if decide (type = PString "ELEMENT_CAPTURED") then
        match handleElementCaptured now ws element s with
        | (s, Ok _) => s
        | (s, Throw e) => reply (ERROR (ExceptionMessage (Thrown e))) s
        end
      else if decide (type = PString "PING") then reply (PONG now) s
      else if decide (type = PString "GET_STATS") then
        let r := getStats now (storage s) in
        reply (STATS r.2) (with_storage s r.1)
      else if decide (type = PString "GET_ELEMENTS") then
        let r := getAll now (storage s) in
        reply (ELEMENTS_LIST r.2) (with_storage s r.1)
      else if decide (type = PString "REMOVE_ELEMENT") then
        reply (ELEMENT_REMOVED id) (with_storage s (remove id (storage s)).1)
      else if decide (type = PString "CLEAR_ALL") then
        reply ALL_CLEARED (with_storage s (clear (storage s)))
      else reply (ERROR (UnknownMessageType type)) s
  end.

(** [client.close()] starts the closing handshake of an open or
    connecting socket. *)
Definition close (ws : sock) (n : net) : net :=
  {| readyState :=
       match readyState n !! ws with
       | Some OPEN | Some CONNECTING => <[ws := CLOSING]> (readyState n)
       | _ => readyState n
       end;
     outbox := outbox n |}.

(** [stop()] *)
Definition stop (s : state) : state :=
  match wss (this s) with
  | Some _ =>
      {| st_world := st_world s; storage := storage s;
         this := {| port := port (this s); wss := None; clients := [] |};
         network := foldl (fun n client => close client n) (network s)
                      (clients (this s)) |}
  | None => s
  end.

Record status := { running : bool; status_port : Z; status_clients : nat }.

(** [getStatus()] *)
Definition getStatus (this : server) : status :=
  {| running := bool_decide (is_Some (wss this));
     status_port := port this;
     status_clients := length (clients this) |}.

End WebSocketServer.

(** ** [mcp-server.js] *)

Module McpServer.
Import JsString Regex Schema Storage Summary Stats.


(** [.] in a pattern without the [s] flag: any unit but a line
    terminator (line feed and carriage return, below 256). *)
Definition is_dot (c : ascii) : bool :=
  negb (bool_decide (c = "010"%char)) && negb (bool_decide (c = "013"%char)).

Fixpoint all_units (P : ascii -> bool) (s : string) : bool :=
  match s with
  | EmptyString => true
  | String c s' => P c && all_units P s'
  end.

(** [uri.match(re)] for the pattern of [ReadResource]: the literal
    [element://], one or more units other than a slash, then either the
    end or a slash followed by one or more units [.] up to the end.  The
    result is the pair of the two groups, the second being [undefined]
    when the optional part is not there. *)
Definition parse_uri (uri : string) : option (string * option string) :=
  if String.prefix "element://" uri then
    let r := drop 10 uri in
    let n := span (fun c => negb (bool_decide (c = "/"%char))) r in
    match n with
    | O => None
    | S _ =>
        match drop n r with
        | EmptyString => Some (take n r, None)
        | String _ sub =>
            match sub with
            | EmptyString => None
            | String _ _ =>
                if all_units is_dot sub then Some (take n r, Some sub) else None
            end
        end
    end
  else None.


(** What a handler throws: one of its own errors, or an exception that
    reaches it from the store or from [summarizeElement]. *)
Inductive mcp_error :=
| InvalidResourceURI (uri : string)
| ElementNotFound (elementId : string)
| NoScreenshot (elementId : string)
| Uncaught (e : error).

Inductive outcome (A : Type) :=
| Return (a : A)
| Raise (e : mcp_error).
Arguments Return {A} a.
Arguments Raise {A} e.



Section list_resources.

(** [new URL(x).hostname], which throws a [TypeError] on what is not a
    URL. *)
Variable hostname : prim -> result string.



End list_resources.







Definition lift {A} (r : result A) : outcome A :=
  match r with
  | Ok a => Return a
  | Throw e => Raise (Uncaught e)
  end.


End McpServer.

(** * The vocabulary of the properties *)

Section vocabulary.
Import JsString Schema Storage.
Implicit Types (h : heap) (e d : CapturedElement) (this : ElementStorage).


(** An entry that [get], [getAll] and [cleanup] keep at time [now]. *)
Definition live (now : Z) (kv : prim * entry) : Prop :=
  (now <= expiresAt kv.2)%Z.

#[global] Instance live_dec now kv : Decision (live now kv).
Proof. unfold live. apply _. Defined.

(** The steps of [sanitizeElement], one by one. *)
Definition scrub_step e : result CapturedElement :=
  if truthy (prop (html e)) then
    match prop (html e) with
    | PString x => Ok (set_html e (PString (scrub x)))
    | _ => Throw TypeError
    end
  else Ok e.

Definition redact_step h e : heap :=
  match attributes e with
  | Some (VRef l) =>
      match h !! l with
      | Some o => <[l := redact o]> h
      | None => h
      end
  | _ => h
  end.

Definition html_step e : result CapturedElement :=
  if truthy (prop (html e)) && longer_than MAX_HTML_SIZE (prop (html e))
  then v ← truncate MAX_HTML_SIZE (prop (html e)); Ok (set_html e v) else Ok e.

Definition text_step e : result CapturedElement :=
  if truthy (prop (text e)) && longer_than MAX_TEXT_SIZE (prop (text e))
  then v ← truncate MAX_TEXT_SIZE (prop (text e)); Ok (set_text e v) else Ok e.

Definition screenshot_step e : CapturedElement :=
  if truthy (prop (screenshot e)) && longer_than MAX_SCREENSHOT_SIZE (prop (screenshot e))
  then set_screenshotTruncated (set_screenshot e (PString "")) (PBool true) else e.

(** [html] makes [sanitizeElement] throw: it is truthy and no string has
    that [replace] could be called on. *)
Definition html_throws e : bool :=
  truthy (prop (html e)) && negb (is_string (prop (html e))).

(** [text] makes [sanitizeElement] throw: it is an array or object whose
    [length] is above the bound, and has no [substring]. *)
Definition text_throws e : bool :=
  match prop (text e) with
  | PObject (Some n) _ => (MAX_TEXT_SIZE <? n)%Z
  | _ => false
  end.

(** A string cut at [max] units, with the marker, when it is longer. *)
Definition cap (max : Z) (x : string) : string :=
  if (max <? str_length x)%Z then substring0 max x ++ TRUNCATED else x.

(** The reasons for which a record is refused. *)
Inductive rejected : any -> Prop :=
| rej_not_object p : rejected (APrim p)
| rej_missing_id e : id e = None -> rejected (AObject e)
| rej_missing_timestamp e : timestamp e = None -> rejected (AObject e)
| rej_missing_url e : url e = None -> rejected (AObject e)
| rej_missing_selector e : selector e = None -> rejected (AObject e)
| rej_missing_html e : html e = None -> rejected (AObject e)
| rej_missing_text e : text e = None -> rejected (AObject e)
| rej_id_type e : is_string (prop (id e)) = false -> rejected (AObject e)
| rej_id_empty e : id e = Some (PString "") -> rejected (AObject e)
| rej_timestamp_type e : is_number (prop (timestamp e)) = false -> rejected (AObject e)
| rej_timestamp_not_positive e n :
    timestamp e = Some (PNumber n) -> (n <= 0)%Z -> rejected (AObject e)
| rej_url_type e : is_string (prop (url e)) = false -> rejected (AObject e)
| rej_url_scheme e s :
    url e = Some (PString s) -> startsWith s "http" = false -> rejected (AObject e)
| rej_selector_type e : is_string (prop (selector e)) = false -> rejected (AObject e)
| rej_selector_empty e : selector e = Some (PString "") -> rejected (AObject e).

(** [c] is the letter [d] in lower or in upper case: [d] itself, or the
    capital from A to Z whose code is the code of [d] less 32. *)
Definition same_letter (c d : ascii) : bool :=
  bool_decide (c = d) || (in_range 65 90 (code c) && (code d =? code c + 32)%N).

(** [m] spells [word], unit by unit, in any mix of cases. *)
Fixpoint spells (m word : string) : bool :=
  match m, word with
  | EmptyString, EmptyString => true
  | String c m', String d word' => same_letter c d && spells m' word'
  | _, _ => false
  end.

(** The key [k] contains one of the five words of the block list,
    spelled in any mix of cases. *)
Definition names_blocked (k : string) : Prop :=
  exists word, word ∈ ["password"; "token"; "secret"; "key"; "auth"] /\
    exists a m b, k = a ++ m ++ b /\ spells m word = true.

(** The calls a client can make on a store, with the time at which each
    is made where the code reads the clock; [CallOutside h] stands for the
    callers changing the objects they share with the store. *)
Inductive call :=
| CallAdd (now : Z) (element : any)
| CallGet (now : Z) (id : prim)
| CallGetAll (now : Z)
| CallRemove (id : prim)
| CallClear
| CallSearch (now : Z) (query : string)
| CallCleanup (now : Z)
| CallDestroy
| CallOutside (h : heap).

Definition step (σ : world * ElementStorage) (c : call) : world * ElementStorage :=
  match c with
  | CallAdd now element => (add now element σ.1 σ.2).1
  | CallGet now id => (σ.1, (get now id σ.2).1)
  | CallGetAll now => (σ.1, (getAll now σ.2).1)
  | CallRemove id => (σ.1, (remove id σ.2).1)
  | CallClear => (σ.1, clear σ.2)
  | CallSearch now query => (σ.1, (search now query σ.2).1)
  | CallCleanup now => (σ.1, cleanup now σ.2)
  | CallDestroy => destroy σ.1 σ.2
  | CallOutside h => ({| objects := h; timers := timers σ.1 |}, σ.2)
  end.

(** The state after a sequence of calls on a new store. *)
Definition run (w : world) (o : options) (cs : list call) : world * ElementStorage :=
  foldl step (constructor w o) cs.

Definition stored_ok (kv : prim * entry) : Prop :=
  kv.1 = prop (id (data kv.2)) /\
  validateCapturedElement (AObject (data kv.2)) = true.

(** The invariant of the store: no key twice, at most [maxElements]
    entries, each a record that passes validation, stored under its own
    [id]. *)
Record store_inv this : Prop := {
  inv_nodup : NoDup (keys (elements this));
  inv_size : length (elements this) <= maxElements this;
  inv_capacity : 1 <= maxElements this;
  inv_stored : Forall stored_ok (elements this)
}.

(** The map after the eviction step of [add]. *)
Definition evict this : jsmap :=
  if decide (maxElements this <= length (elements this))
  then map_delete (first_key (elements this)) (elements this)
  else elements this.

(** One of the four searched fields contains [q], ignoring case. *)
Definition field_contains (q : string) (p : prim) : bool :=
  match p with
  | PString s => includes (toLowerCase s) (toLowerCase q)
  | _ => false
  end.

Definition record_contains (q : string) d : bool :=
  field_contains q (prop (selector d)) || field_contains q (prop (text d)) ||
  field_contains q (prop (html d)) || field_contains q (prop (url d)).

(** The records on which the predicate of [search] cannot throw. *)
Definition strings_only d : Prop :=
  is_string (prop (selector d)) = true /\ is_string (prop (text d)) = true /\
  is_string (prop (html d)) = true /\ is_string (prop (url d)) = true.

(** The value of the property [k] of the object at [l]. *)
Definition read (h : heap) (l : loc) (k : string) : option value :=
  h !! l ≫= fun o => o !! k.

End vocabulary.

(** ** Sample data *)

Module Sample.
Import JsString Schema Storage.

(** A record that passes validation for a non-empty [i] and a positive
    [ts]. *)
Definition record (i : string) (ts : Z) (body excerpt : prim)
  (attrs : option value) : CapturedElement :=
  {| id := Some (PString i); timestamp := Some (PNumber ts);
     url := Some (PString "http://a.test/"); selector := Some (PString "div.item");
     html := Some body; text := Some excerpt; attributes := attrs;
     screenshot := None; _screenshotTruncated := None; rest := ∅ |}.

Definition plain (i : string) (ts : Z) : CapturedElement :=
  record i ts (PString "<p>hi</p>") (PString "hi") None.

Definition empty_world : world := {| objects := ∅; timers := ∅ |}.

Definition config (capacity : nat) (ttl : Z) : options :=
  {| opt_maxElements := Some capacity; opt_ttl := Some ttl;
     opt_cleanupInterval := None |}.

(** A record whose [text] is the number 123. *)
Definition numeric_text : CapturedElement :=
  record "n" 1 (PString "<p>hi</p>") (PNumber 123) None.

(** The caller's attribute object, at location 0 of the heap, and a
    record that refers to it. *)
Definition caller_attributes : object :=
  {[ "data-token" := VPrim (PString "abc"); "class" := VPrim (PString "btn") ]}.

Definition caller_heap : heap := {[ 0 := caller_attributes ]}.

Definition with_token : CapturedElement :=
  record "t" 1 (PString "<p>hi</p>") (PString "hi") (Some (VRef 0)).

(** A record whose [text] is the object with the one property [length],
    of value 10,001, and whose attributes are the caller's: it passes
    validation. *)
Definition long_object_text : CapturedElement :=
  record "o" 1 (PString "<p>hi</p>") (PObject (Some 10001%Z) "[object Object]")
    (Some (VRef 0)).

(** An attribute object whose sensitive keys are written with capitals,
    at location 0 of a heap, and a record that refers to it. *)
Definition capital_attributes : object :=
  {[ "API_KEY" := VPrim (PString "k-1"); "X-Auth-Id" := VPrim (PString "u-2");
     "Class" := VPrim (PString "btn") ]}.

Definition capital_heap : heap := {[ 0 := capital_attributes ]}.

Definition with_api_key : CapturedElement :=
  record "k" 1 (PString "<p>hi</p>") (PString "hi") (Some (VRef 0)).

(** A record with a body of 50,001 units, an excerpt of 10,001 units
    and a screenshot of 1,000,001 units. *)
Definition oversized : CapturedElement :=
  {| id := Some (PString "big"); timestamp := Some (PNumber 1);
     url := Some (PString "http://a.test/"); selector := Some (PString "div.item");
     html := Some (PString (replicate (Z.to_nat 50001) "a"));
     text := Some (PString (replicate (Z.to_nat 10001) "b"));
     attributes := None;
     screenshot := Some (PString (replicate (Z.to_nat 1000001) "c"));
     _screenshotTruncated := None; rest := ∅ |}.

End Sample.

(** ** Sample data for the handlers *)

Module HandlerSample.
Import JsString Schema Storage WebSocketServer McpServer Sample.


(** A record whose [html] is the number 7: it passes validation, and
    [sanitizeElement] throws on it. *)
Definition numeric_html : CapturedElement :=
  record "h" 1 (PNumber 7) (PString "hi") None.


(** Three connections, the second of which is closed, with nothing sent
    yet. *)
Definition three_sockets : net :=
  {| readyState := {[ 1 := OPEN; 2 := CLOSED; 3 := OPEN ]}; outbox := [] |}.

Definition serving : state :=
  {| st_world := empty_world;
     storage := (Storage.constructor empty_world (config 50 1000)).2;
     this := {| port := 38100; wss := Some 38100%Z; clients := [1; 2; 3] |};
     network := three_sockets |}.

(** The same server in a process that holds the caller's attribute
    object. *)
Definition serving_callers : state :=
  {| st_world := {| objects := caller_heap; timers := ∅ |};
     storage := storage serving; this := this serving; network := three_sockets |}.

End HandlerSample.

(** ** The vocabulary of the handlers *)

Section handler_vocabulary.
Import JsString Schema Storage WebSocketServer McpServer.

(** A unit other than the slash. *)
Definition not_slash (c : ascii) : bool := negb (bool_decide (c = "/"%char)).

(** [uri] is [element://], the id [i] and, when there is one, a slash
    and the sub-resource: [i] is not empty and has no slash, the
    sub-resource is not empty and has no line terminator. *)
Definition uri_shape (uri i : string) (sub : option string) : Prop :=
  i <> "" /\ all_units not_slash i = true /\
  match sub with
  | None => uri = "element://" ++ i
  | Some s => s <> "" /\ all_units is_dot s = true /\ uri = "element://" ++ i ++ "/" ++ s
  end.

(** The messages of [l] sent on the connection [ws]. *)
Definition sent_to (ws : sock) (l : list (sock * outmsg)) : list outmsg :=
  (filter (fun m => m.1 = ws) l).*2.

(** The connections of [l], other than [exclude], that are open. *)
Definition open_others (n : net) (exclude : option sock) (l : list sock) : list sock :=
  filter (fun c => Some c <> exclude /\ readyState n !! c = Some OPEN) l.

(** What happens to a server: a connection opens, a message arrives on
    a connection at some time, a connection closes, the server is
    stopped, or the network changes the state of its connections. *)
Inductive ws_event :=
| Connection (ws : sock)
| Message (now : Z) (ws : sock) (data : inbound)
| Close (ws : sock)
| Stop
| Network (readyState : gmap sock ready).

Definition ws_step (s : state) (ev : ws_event) : state :=
  match ev with
  | Connection ws => on_connection ws s
  | Message now ws data => handleMessage now ws data s
  | Close ws => on_close ws s
  | Stop => stop s
  | Network rs =>
      with_network s {| readyState := rs; outbox := outbox (network s) |}
  end.

(** The state after a sequence of events, the first of which finds the
    state [s]. *)
Definition ws_run (s : state) (evs : list ws_event) : state := foldl ws_step s evs.

End handler_vocabulary.

(** * Properties *)

(** ** Strings *)

Section string_facts.
Import JsString.

Lemma app_cons (c : ascii) (a b : string) : String c a ++ b = String c (a ++ b).
Proof. reflexivity. Qed.

Lemma prefix_app (t s : string) :
  String.prefix t s = true <-> exists b, s = t ++ b.
Proof.
  revert s. induction t as [|c t IH]; intros s.
  - split; [intros _; by exists s | by destruct s].
  - destruct s as [|c' s]; simpl.
    + split; [done | intros [b Hb]; discriminate].
    + destruct (Ascii.ascii_dec c c') as [->|Hne].
      * rewrite IH. split; intros [b Hb]; exists b;
          rewrite app_cons in *; congruence.
      * split; [done | intros [b Hb]; rewrite app_cons in Hb; congruence].
Qed.

Lemma includes_nil (t : string) : includes "" t = String.prefix t "" || false.
Proof. reflexivity. Qed.

Lemma includes_cons (c : ascii) (s t : string) :
  includes (String c s) t = String.prefix t (String c s) || includes s t.
Proof. reflexivity. Qed.

(** [includes] is the substring test. *)
Lemma includes_spec (s t : string) :
  includes s t = true <-> exists a b, s = a ++ t ++ b.
Proof.
  induction s as [|c s IH].
  - rewrite includes_nil, orb_false_r, prefix_app. split.
    + intros [b Hb]. by exists "", b.
    + intros [a [b Hab]]. destruct a; [by exists b | discriminate].
  - rewrite includes_cons, orb_true_iff, prefix_app, IH. split.
    + intros [[b Hb]|[a [b Hab]]].
      * by exists "", b.
      * exists (String c a), b. rewrite app_cons. by rewrite Hab.
    + intros [a [b Hab]]. destruct a as [|c' a].
      * left. by exists b.
      * right. exists a, b. rewrite app_cons in Hab. congruence.
Qed.

Lemma take_drop (n : nat) (s : string) : s = take n s ++ drop n s.
Proof.
  revert s. induction n as [|n IH]; intros [|c s]; simpl; try done.
  by rewrite app_cons, <- IH.
Qed.

Lemma length_take (n : nat) (s : string) :
  (n <= String.length s)%nat -> String.length (take n s) = n.
Proof.
  revert s. induction n as [|n IH]; intros [|c s]; simpl; intros Hn; try lia.
  rewrite IH; lia.
Qed.

(** [s.substring(0, n)] on a string longer than [n] is its prefix of
    length [n]. *)
Lemma substring0_spec (n : Z) (s : string) :
  (0 <= n < str_length s)%Z ->
  str_length (substring0 n s) = n /\ exists r, s = substring0 n s ++ r.
Proof.
  unfold str_length, substring0. intros Hn. split.
  - rewrite length_take; lia.
  - eexists. apply take_drop.
Qed.

Lemma str_length_replicate (n : nat) (c : ascii) :
  str_length (replicate n c) = Z.of_nat n.
Proof.
  unfold str_length. f_equal. induction n as [|n IH]; simpl; congruence.
Qed.

Lemma toLowerCase_length (s : string) :
  str_length (toLowerCase s) = str_length s.
Proof.
  unfold str_length. f_equal. induction s as [|c s IH]; simpl; congruence.
Qed.

End string_facts.

(** ** The [Map] operations *)

Section map_facts.
Import Schema Storage.
Implicit Types (m : jsmap) (k : prim) (v : entry).

Lemma map_get_Some m k v : map_get k m = Some v -> (k, v) ∈ m.
Proof.
  induction m as [|[k' v'] m IH]; simpl; [done|].
  case_decide as Hk.
  - intros [= ->]. subst. left.
  - intros H. right. auto.
Qed.

Lemma map_get_None m k : map_get k m = None <-> k ∉ keys m.
Proof.
  unfold keys. induction m as [|[k' v'] m IH]; simpl.
  - split; [intros _; apply not_elem_of_nil | done].
  - rewrite not_elem_of_cons. case_decide as Hk.
    + split; [done | intros [Hne _]; congruence].
    + rewrite IH. split; [intros Hm; split; [congruence | done] | by intros [_ Hm]].
Qed.

Lemma map_get_elem m k v :
  NoDup (keys m) -> (k, v) ∈ m -> map_get k m = Some v.
Proof.
  unfold keys. induction m as [|[k' v'] m IH]; simpl.
  - intros _ H. by apply elem_of_nil in H.
  - rewrite NoDup_cons. intros [Hk' Hnd] Hin.
    apply elem_of_cons in Hin as [[= -> ->]|Hin].
    + by rewrite decide_True.
    + rewrite decide_False; [auto|].
      intros ->. apply Hk'. apply list_elem_of_fmap. by exists (k, v).
Qed.

End map_facts.

Section map_update_facts.
Import Schema Storage.
Implicit Types (m : jsmap) (k : prim) (v : entry).

Lemma keys_delete m k : keys (map_delete k m) = filter (fun k' => k' <> k) (keys m).
Proof.
  unfold keys, map_delete. induction m as [|[k' v'] m IH]; [done|].
  rewrite fmap_cons, !filter_cons. simpl fst.
  case_decide; [rewrite fmap_cons; f_equal|]; exact IH.
Qed.

Lemma map_delete_fresh m k : k ∉ keys m -> map_delete k m = m.
Proof.
  unfold keys, map_delete. induction m as [|[k' v'] m IH]; [done|].
  rewrite fmap_cons, not_elem_of_cons, filter_cons. simpl fst.
  intros [Hne Hk]. rewrite decide_True by done. by rewrite IH.
Qed.

(** Deleting the first key of a map without duplicates removes the first
    entry and nothing else. *)
Lemma map_delete_first k v m :
  NoDup (keys ((k, v) :: m)) -> map_delete (first_key ((k, v) :: m)) ((k, v) :: m) = m.
Proof.
  unfold keys. rewrite fmap_cons, NoDup_cons. simpl. intros [Hk _].
  unfold map_delete. rewrite filter_cons. simpl fst.
  rewrite decide_False by (intros H; by apply H).
  by apply map_delete_fresh.
Qed.

Lemma keys_set m k v :
  keys (map_set k v m) = if decide (k ∈ keys m) then keys m else (keys m ++ [k])%list.
Proof.
  unfold keys. induction m as [|[k' v'] m IH]; simpl map_set.
  - rewrite decide_False; [done | apply not_elem_of_nil].
  - destruct (decide (k' = k)) as [->|Hne]; rewrite !fmap_cons; simpl fst.
    + rewrite decide_True; [done | left].
    + rewrite IH. destruct (decide (k ∈ m.*1)) as [Hin|Hnin].
      * rewrite decide_True; [done | by right].
      * rewrite decide_False; [done|].
        rewrite not_elem_of_cons. split; [congruence | done].
Qed.

Lemma NoDup_set m k v : NoDup (keys m) -> NoDup (keys (map_set k v m)).
Proof.
  intros Hnd. rewrite keys_set. case_decide as Hk; [done|].
  apply NoDup_app. split_and!; [done | | apply NoDup_singleton].
  intros x Hx Hx'. apply list_elem_of_singleton in Hx' as ->. done.
Qed.

Lemma length_set m k v :
  length (map_set k v m) = if decide (k ∈ keys m) then length m else S (length m).
Proof.
  rewrite <- (length_fmap fst (map_set k v m)), <- (length_fmap fst m).
  fold (keys (map_set k v m)). fold (keys m). rewrite keys_set.
  case_decide; [done|]. rewrite length_app. simpl. lia.
Qed.

Lemma map_get_set m k v k' :
  map_get k' (map_set k v m) = if decide (k = k') then Some v else map_get k' m.
Proof.
  induction m as [|[k0 v0] m IH]; simpl.
  - repeat case_decide; congruence.
  - destruct (decide (k0 = k)) as [->|Hne]; simpl.
    + repeat case_decide; congruence.
    + rewrite IH. repeat case_decide; congruence.
Qed.

End map_update_facts.

(** ** Sorting and the loop of [getAll] *)

Section getAll_facts.
Import Schema Storage.
Implicit Types (m : jsmap) (l : list CapturedElement).

Lemma insert_sorted_perm x l : insert_sorted x l ≡ₚ x :: l.
Proof.
  induction l as [|y l IH]; simpl; [done|].
  destruct (compare x y <=? 0)%Z; [done|].
  rewrite IH. apply Permutation_swap.
Qed.

Lemma sort_perm l : sort l ≡ₚ l.
Proof.
  induction l as [|x l IH]; simpl; [done|].
  by rewrite insert_sorted_perm, IH.
Qed.





Lemma filter_all {A} (P : A -> Prop) `{!forall x, Decision (P x)} (xs : list A) :
  (forall x, x ∈ xs -> P x) -> filter P xs = xs.
Proof.
  induction xs as [|x xs IH]; intros Hall; [done|].
  rewrite filter_cons, decide_True by (apply Hall; left).
  f_equal. apply IH. intros y Hy. apply Hall. by right.
Qed.

Lemma getAll_step_eq now m l k e :
  getAll_step now (m, l) (k, e)
  = if (expiresAt e <? now)%Z then (map_delete k m, l) else (m, (l ++ [data e])%list).
Proof. reflexivity. Qed.

(** The loop of [getAll] run over the entries [es] from the map [m] and
    the array [acc]. *)
Lemma getAll_loop now (es : jsmap) m l :
  foldl (getAll_step now) (m, l) es
  = (filter (fun kv => kv.1 ∉ keys (filter (fun kv => ¬ live now kv) es)) m,
     (l ++ (data ∘ snd <$> filter (live now) es))%list).
Proof.
  revert m l. induction es as [|[k e] es IH]; intros m l.
  - simpl. rewrite app_nil_r. f_equal. symmetry.
    apply filter_all. intros kv _. apply not_elem_of_nil.
  - cbn [foldl]. rewrite getAll_step_eq, !filter_cons.
    destruct (decide (live now (k, e))) as [Hl|Hl];
      destruct (decide (¬ live now (k, e))) as [Hn|Hn]; try tauto;
      unfold live in Hl; simpl in Hl.
    + assert ((expiresAt e <? now)%Z = false) as -> by (apply Z.ltb_ge; lia).
      rewrite IH. f_equal. by rewrite fmap_cons, <- app_assoc.
    + assert ((expiresAt e <? now)%Z = true) as -> by (apply Z.ltb_lt; lia).
      rewrite IH. f_equal. unfold map_delete. rewrite list_filter_filter.
      apply list_filter_iff. intros kv. unfold keys. rewrite fmap_cons.
      simpl fst. rewrite not_elem_of_cons. tauto.
Qed.

Lemma filter_not_expired_keys now m :
  NoDup (keys m) ->
  filter (fun kv => kv.1 ∉ keys (filter (fun kv => ¬ live now kv) m)) m
  = filter (live now) m.
Proof.
  intros Hnd.
  assert (Hin : forall kv, kv ∈ m ->
    kv.1 ∉ keys (filter (fun kv => ¬ live now kv) m) <-> live now kv).
  { intros [k e] Hkv. simpl. split.
    - intros Hk. destruct (decide (live now (k, e))) as [|Hn]; [done|].
      exfalso. apply Hk. unfold keys. apply list_elem_of_fmap.
      exists (k, e). split; [done|]. by apply list_elem_of_filter.
    - intros Hl Hk. unfold keys in Hk. apply list_elem_of_fmap in Hk as [[k' e'] [Hk Hf]].
      simpl in Hk. subst k'. apply list_elem_of_filter in Hf as [Hn Hin].
      apply (map_get_elem _ _ _ Hnd) in Hkv, Hin.
      assert (e' = e) as -> by congruence. by apply Hn. }
  clear Hnd. revert Hin.
  generalize (keys (filter (fun kv => ¬ live now kv) m)). intros ks.
  induction m as [|kv m IH]; intros Hin; [done|].
  rewrite !filter_cons.
  assert (Hm : filter (fun kv => kv.1 ∉ ks) m = filter (live now) m).
  { apply IH. intros kv' Hkv'. apply Hin. by right. }
  rewrite Hm. specialize (Hin kv (list_elem_of_here _ _)).
  repeat case_decide; tauto.
Qed.

(** [getAll] keeps in the map, and returns sorted, exactly the entries
    that are live. *)
Lemma getAll_spec now (this : ElementStorage) :
  NoDup (keys (elements this)) ->
  getAll now this
  = (with_elements this (filter (live now) (elements this)),
     sort (data ∘ snd <$> filter (live now) (elements this))).
Proof.
  intros Hnd. unfold getAll. rewrite getAll_loop. simpl.
  by rewrite filter_not_expired_keys.
Qed.

End getAll_facts.

(** ** [validateCapturedElement] and [sanitizeElement] *)

Section schema_facts.
Import JsString Schema.
Implicit Types (h : heap) (e s : CapturedElement) (o : object).

Lemma sanitizeElement_steps h e :
  sanitizeElement h e
  = match scrub_step e with
    | Ok e1 =>
        (redact_step h e1,
         e2 ← html_step e1; e3 ← text_step e2; Ok (screenshot_step e3))
    | Throw err => (h, Throw err)
    end.
Proof. reflexivity. Qed.

Lemma truthy_longer max x :
  (0 <= max)%Z ->
  truthy (PString x) && longer_than max (PString x) = (max <? str_length x)%Z.
Proof.
  intros Hmax. simpl. case_bool_decide as Hx; simpl; [|done].
  subst x. symmetry. apply Z.ltb_ge. unfold str_length. simpl. lia.
Qed.

Lemma scrub_step_inv e e1 :
  scrub_step e = Ok e1 ->
  id e1 = id e /\ timestamp e1 = timestamp e /\ url e1 = url e /\
  selector e1 = selector e /\ text e1 = text e /\ attributes e1 = attributes e /\
  screenshot e1 = screenshot e /\ _screenshotTruncated e1 = _screenshotTruncated e /\
  rest e1 = rest e /\
  (forall x, html e = Some (PString x) -> html e1 = Some (PString (scrub x))) /\
  (is_string (prop (html e)) = false ->
     html e1 = html e /\ truthy (prop (html e)) = false).
Proof.
  unfold scrub_step. destruct (html e) as [[| |[]|n|x|len sh]|] eqn:Hh; simpl;
    try (intros [= <-]; rewrite ?Hh; by repeat split).
  - destruct (n =? 0)%Z; simpl; [|done].
    intros [= <-]; rewrite ?Hh; by repeat split.
  - case_bool_decide as Hx; simpl.
    + intros [= <-]. rewrite Hh. repeat split; try done.
      intros ? [= <-]. by subst x.
    + intros [= <-]. simpl. repeat split; try done. by intros ? [= <-].
Qed.

(** [scrub_step] throws exactly on an [html] that is truthy and not a
    string. *)
Lemma scrub_step_Throw e :
  scrub_step e = Throw TypeError <-> html_throws e = true.
Proof.
  unfold scrub_step, html_throws.
  destruct (prop (html e)) as [| |[]|n|x|len sh]; simpl; try done.
  - by destruct (n =? 0)%Z.
  - by case_bool_decide.
Qed.

Lemma html_step_inv e e2 :
  html_step e = Ok e2 ->
  id e2 = id e /\ timestamp e2 = timestamp e /\
  url e2 = url e /\ selector e2 = selector e /\
  text e2 = text e /\ attributes e2 = attributes e /\
  screenshot e2 = screenshot e /\
  _screenshotTruncated e2 = _screenshotTruncated e /\
  rest e2 = rest e /\
  (forall x, html e = Some (PString x) ->
     html e2 = Some (PString (cap MAX_HTML_SIZE x))) /\
  (is_string (prop (html e)) = false -> html e2 = html e).
Proof.
  unfold html_step.
  destruct (truthy (prop (html e)) && longer_than MAX_HTML_SIZE (prop (html e))) eqn:Hc.
  - destruct (prop (html e)) as [| |b|n|x|len sh] eqn:Hp; simpl; try done.
    intros [= <-]. simpl. repeat split; try done.
    intros y Hy. rewrite Hy in Hp. injection Hp as ->.
    rewrite truthy_longer in Hc by done. unfold cap. by rewrite Hc.
  - intros [= <-]. repeat split; try done.
    intros x Hx. rewrite Hx in Hc |- *. simpl prop in Hc.
    rewrite truthy_longer in Hc by done. unfold cap. by rewrite Hc.
Qed.

(** After [scrub_step] the [html] is falsy or a string, and the cut of
    [html] cannot throw. *)
Lemma html_step_Ok e :
  html_throws e = false -> exists e2, html_step e = Ok e2.
Proof.
  unfold html_throws, html_step.
  destruct (prop (html e)) as [| |[]|n|x|[m|] sh]; simpl; try done; eauto.
  - destruct (n =? 0)%Z; simpl; [eauto | done].
  - intros _. destruct (_ && _); by eexists.
Qed.

Lemma text_step_inv e e3 :
  text_step e = Ok e3 ->
  id e3 = id e /\ timestamp e3 = timestamp e /\
  url e3 = url e /\ selector e3 = selector e /\
  html e3 = html e /\ attributes e3 = attributes e /\
  screenshot e3 = screenshot e /\
  _screenshotTruncated e3 = _screenshotTruncated e /\
  rest e3 = rest e /\
  (forall x, text e = Some (PString x) ->
    text e3 = Some (PString (cap MAX_TEXT_SIZE x))) /\
  (is_string (prop (text e)) = false -> text e3 = text e).
Proof.
  unfold text_step.
  destruct (truthy (prop (text e)) && longer_than MAX_TEXT_SIZE (prop (text e))) eqn:Hc.
  - destruct (prop (text e)) as [| |b|n|x|len sh] eqn:Hp; simpl; try done.
    intros [= <-]. simpl. repeat split; try done.
    intros y Hy. rewrite Hy in Hp. injection Hp as ->.
    rewrite truthy_longer in Hc by done. unfold cap. by rewrite Hc.
  - intros [= <-]. repeat split; try done.
    intros x Hx. rewrite Hx in Hc |- *. simpl prop in Hc.
    rewrite truthy_longer in Hc by done. unfold cap. by rewrite Hc.
Qed.

(** The cut of [text] throws exactly on an array or object whose
    [length] is more than 10,000. *)
Lemma text_step_Throw e :
  text_step e = Throw TypeError <-> text_throws e = true.
Proof.
  unfold text_step, text_throws.
  destruct (prop (text e)) as [| |[]|n|x|[m|] sh]; simpl; try done.
  - by destruct (n =? 0)%Z.
  - by destruct (_ && _).
  - by destruct (MAX_TEXT_SIZE <? m)%Z.
Qed.

Lemma text_step_Ok e :
  text_throws e = false -> exists e3, text_step e = Ok e3.
Proof.
  intros Ht. destruct (text_step e) as [e3|[]] eqn:H3; [eauto|].
  apply text_step_Throw in H3. congruence.
Qed.

Lemma screenshot_step_inv e :
  id (screenshot_step e) = id e /\ timestamp (screenshot_step e) = timestamp e /\
  url (screenshot_step e) = url e /\ selector (screenshot_step e) = selector e /\
  html (screenshot_step e) = html e /\ text (screenshot_step e) = text e /\
  attributes (screenshot_step e) = attributes e /\
  rest (screenshot_step e) = rest e /\
  forall x, screenshot e = Some (PString x) ->
    if (MAX_SCREENSHOT_SIZE <? str_length x)%Z
    then screenshot (screenshot_step e) = Some (PString "") /\
         _screenshotTruncated (screenshot_step e) = Some (PBool true)
    else screenshot (screenshot_step e) = Some (PString x) /\
         _screenshotTruncated (screenshot_step e) = _screenshotTruncated e.
Proof.
  unfold screenshot_step.
  destruct (truthy (prop (screenshot e))
            && longer_than MAX_SCREENSHOT_SIZE (prop (screenshot e))) eqn:Hc;
    simpl; repeat split; try done; intros x Hx; rewrite Hx in Hc; simpl prop in Hc;
    rewrite truthy_longer in Hc by done; rewrite Hc; by rewrite ?Hx.
Qed.

End schema_facts.

Section sanitize_facts.
Import JsString Schema McpServer.
Implicit Types (h : heap) (e s : CapturedElement) (o : object).

(** A [sanitizeElement] that returns went through the four steps. *)
Lemma sanitizeElement_returns h e h' s :
  sanitizeElement h e = (h', Ok s) ->
  exists e1 e2 e3,
    scrub_step e = Ok e1 /\ html_step e1 = Ok e2 /\ text_step e2 = Ok e3 /\
    s = screenshot_step e3 /\ h' = redact_step h e1.
Proof.
  rewrite sanitizeElement_steps. destruct (scrub_step e) as [e1|] eqn:H1; [|done].
  destruct (html_step e1) as [e2|] eqn:H2; simpl; [|done].
  destruct (text_step e2) as [e3|] eqn:H3; simpl; [|done].
  intros [= <- <-]. by exists e1, e2, e3.
Qed.

(** What a successful [sanitizeElement] returns, field by field. *)
Lemma sanitizeElement_inv h e h' s :
  sanitizeElement h e = (h', Ok s) ->
  h' = redact_step h e /\
  id s = id e /\ timestamp s = timestamp e /\ url s = url e /\
  selector s = selector e /\ attributes s = attributes e /\ rest s = rest e /\
  (forall x, html e = Some (PString x) ->
     html s = Some (PString (cap MAX_HTML_SIZE (scrub x)))) /\
  (forall x, text e = Some (PString x) ->
     text s = Some (PString (cap MAX_TEXT_SIZE x))) /\
  (is_string (prop (text e)) = false -> text s = text e) /\
  (forall x, screenshot e = Some (PString x) ->
     if (MAX_SCREENSHOT_SIZE <? str_length x)%Z
     then screenshot s = Some (PString "") /\
          _screenshotTruncated s = Some (PBool true)
     else screenshot s = Some (PString x) /\
          _screenshotTruncated s = _screenshotTruncated e).
Proof.
  intros (e1 & e2 & e3 & H1 & H2 & H3 & -> & ->)%sanitizeElement_returns.
  destruct (scrub_step_inv _ _ H1)
    as (Hi1 & Ht1 & Hu1 & Hs1 & Hx1 & Ha1 & Hc1 & Hf1 & Hr1 & Hh1 & _).
  destruct (html_step_inv _ _ H2)
    as (Hi2 & Ht2 & Hu2 & Hs2 & Hx2 & Ha2 & Hc2 & Hf2 & Hr2 & Hh2 & _).
  destruct (text_step_inv _ _ H3)
    as (Hi3 & Ht3 & Hu3 & Hs3 & Hh3 & Ha3 & Hc3 & Hf3 & Hr3 & Hx3 & Hx3').
  destruct (screenshot_step_inv e3)
    as (Hi4 & Ht4 & Hu4 & Hs4 & Hh4 & Hx4 & Ha4 & Hr4 & Hc4).
  split_and!; try congruence.
  - unfold redact_step. by rewrite Ha1.
  - intros x Hx. rewrite Hh4, Hh3. apply Hh2, Hh1, Hx.
  - intros x Hx. rewrite Hx4. apply Hx3. congruence.
  - intros Hx. rewrite Hx4, Hx3'; [congruence|]. by rewrite Hx2, Hx1.
  - intros x Hx. specialize (Hc4 x). rewrite Hc3, Hc2, Hc1 in Hc4.
    specialize (Hc4 Hx). rewrite Hf3, Hf2, Hf1 in Hc4. exact Hc4.
Qed.

Lemma html_throws_scrubbed e e1 :
  scrub_step e = Ok e1 -> html_throws e1 = false.
Proof.
  unfold scrub_step, html_throws.
  destruct (prop (html e)) as [| |[]|n|x|len sh] eqn:Hp; simpl; try done;
    try (intros [= <-]; by rewrite Hp).
  - destruct (n =? 0)%Z eqn:Hn; simpl; [|done]. intros [= <-]. rewrite Hp. simpl.
    by rewrite Hn.
  - case_bool_decide; simpl; intros [= <-]; [rewrite Hp|]; simpl;
      by rewrite andb_false_r.
Qed.

(** When [sanitizeElement] throws, how far it went: it throws on an
    [html] that is truthy and not a string, before it has written
    anything, and on a [text] that is an array or object with a [length]
    above 10,000, after it has written to the attribute object; and it
    throws in no other case. *)
Lemma sanitizeElement_cases h e :
  (html_throws e = true /\ sanitizeElement h e = (h, Throw TypeError)) \/
  (html_throws e = false /\ text_throws e = true /\
   sanitizeElement h e = (redact_step h e, Throw TypeError)) \/
  (html_throws e = false /\ text_throws e = false /\
   exists s, sanitizeElement h e = (redact_step h e, Ok s)).
Proof.
  rewrite sanitizeElement_steps.
  destruct (scrub_step e) as [e1|[]] eqn:H1.
  - right.
    assert (Hh : html_throws e = false).
    { destruct (html_throws e) eqn:Hh; [|done]. apply scrub_step_Throw in Hh. congruence. }
    destruct (scrub_step_inv _ _ H1) as (_ & _ & _ & _ & Hx1 & Ha1 & _).
    assert (Hr : redact_step h e1 = redact_step h e) by (unfold redact_step; by rewrite Ha1).
    destruct (html_step_Ok e1 (html_throws_scrubbed _ _ H1)) as [e2 H2].
    destruct (html_step_inv _ _ H2) as (_ & _ & _ & _ & Hx2 & _).
    assert (Ht : text_throws e2 = text_throws e).
    { unfold text_throws. by rewrite Hx2, Hx1. }
    rewrite H2, Hr. simpl. destruct (text_throws e) eqn:Hte.
    + left. apply text_step_Throw in Ht. by rewrite Ht.
    + right. destruct (text_step_Ok _ Ht) as [e3 H3]. rewrite H3. simpl.
      repeat split; try done. by eexists.
  - left. by apply scrub_step_Throw in H1.
Qed.

(** [sanitizeElement] returns when neither [html] nor [text] makes it
    throw. *)
Lemma sanitizeElement_Ok h e :
  html_throws e = false -> text_throws e = false ->
  exists s, sanitizeElement h e = (redact_step h e, Ok s).
Proof.
  intros Hh Ht.
  destruct (sanitizeElement_cases h e) as [[? _]|[(_ & ? & _)|(_ & _ & Hs)]];
    [congruence.. | exact Hs].
Qed.

(** The loop of [redact], key by key. *)
Lemma redact_lookup o (k : string) :
  redact o !! k = (fun v => if sensitive k then REDACTED else v) <$> o !! k.
Proof.
  unfold redact.
  assert (Hgen : forall acc : object,
    map_fold (fun attr _ acc => if sensitive attr then <[attr := REDACTED]> acc else acc)
      acc o !! k
    = match o !! k with
      | Some _ => if sensitive k then Some REDACTED else acc !! k
      | None => acc !! k
      end).
  { intros acc. 
    apply (map_fold_weak_ind (fun r (m : object) =>
      r !! k = match m !! k with
               | Some _ => if sensitive k then Some REDACTED else acc !! k
               | None => acc !! k
               end)).
    - by rewrite lookup_empty.
    - intros i x m r Hi IH. destruct (decide (i = k)) as [->|Hne].
      + rewrite lookup_insert_eq. rewrite Hi in IH.
        destruct (sensitive k); [by rewrite lookup_insert_eq | done].
      + rewrite lookup_insert_ne by done.
        destruct (sensitive i); [rewrite lookup_insert_ne by done|]; exact IH. }
  rewrite Hgen. destruct (o !! k); simpl; [|done]. by destruct (sensitive k).
Qed.

(** A key is redacted when its lower-case form contains one of the five
    words. *)
Lemma sensitive_spec (k : string) :
  sensitive k = true <->
  exists w, w ∈ sensitiveAttrs /\ exists a b, toLowerCase k = a ++ w ++ b.
Proof.
  unfold sensitive. rewrite existsb_exists. split.
  - intros (w & Hw & Hi). exists w. split; [by apply list_elem_of_In|].
    by apply includes_spec.
  - intros (w & Hw & Hi). exists w. split; [by apply list_elem_of_In|].
    by apply includes_spec.
Qed.

Lemma toLowerCase_app (a b : string) :
  toLowerCase (a ++ b) = toLowerCase a ++ toLowerCase b.
Proof. induction a as [|c a IH]; [done|]. rewrite !app_cons. simpl. by rewrite IH, app_cons. Qed.

Lemma toLowerCase_split (k x y : string) :
  toLowerCase k = x ++ y ->
  exists k1 k2, k = k1 ++ k2 /\ toLowerCase k1 = x /\ toLowerCase k2 = y.
Proof.
  revert k. induction x as [|c x IH]; intros k Hk.
  - by exists "", k.
  - destruct k as [|c' k]; [done|]. rewrite app_cons in Hk. simpl in Hk.
    injection Hk as Hc Hk. destruct (IH k Hk) as (k1 & k2 & -> & H1 & H2).
    exists (String c' k1), k2. rewrite app_cons. simpl. by rewrite Hc, H1.
Qed.

(** [toLowerCase] sends to a small letter that letter and its capital,
    and nothing else. *)
Lemma lower_char_small (c : ascii) :
  in_range 97 122 (code (lower_char c)) = true -> same_letter c (lower_char c) = true.
Proof. destruct c as [[] [] [] [] [] [] [] []]; vm_compute; done. Qed.

Lemma small_lower_char (d : ascii) :
  in_range 97 122 (code d) = true -> lower_char d = d.
Proof. destruct d as [[] [] [] [] [] [] [] []]; vm_compute; done. Qed.

Lemma same_letter_lower (c d : ascii) :
  in_range 97 122 (code d) = true -> same_letter c d = true -> lower_char c = d.
Proof.
  intros Hd. unfold same_letter. rewrite orb_true_iff, andb_true_iff, bool_decide_eq_true.
  intros [->|[Hc Hcd]]; [by apply small_lower_char|].
  unfold lower_char. rewrite Hc. simpl. apply N.eqb_eq in Hcd. rewrite <- Hcd.
  apply ascii_N_embedding.
Qed.

Lemma spells_lower (m word : string) :
  all_units (fun d => in_range 97 122 (code d)) word = true ->
  spells m word = true <-> toLowerCase m = word.
Proof.
  revert m. induction word as [|d word IH]; intros [|c m]; simpl; try done.
  rewrite !andb_true_iff. intros [Hd Hw]. rewrite (IH m Hw). split.
  - intros [Hcd <-]. by rewrite (same_letter_lower c d Hd Hcd).
  - intros [= <- <-]. split; [by apply lower_char_small | done].
Qed.

Lemma blocked_words_small (word : string) :
  word ∈ ["password"; "token"; "secret"; "key"; "auth"] ->
  all_units (fun d => in_range 97 122 (code d)) word = true.
Proof.
  intros H. repeat (apply elem_of_cons in H as [->|H]; [vm_compute; reflexivity|]).
  by apply elem_of_nil in H.
Qed.

(** The keys that the block list names are those whose lower-case form
    contains one of its words. *)
Lemma names_blocked_lower (k : string) :
  names_blocked k <->
  exists word, word ∈ ["password"; "token"; "secret"; "key"; "auth"] /\
    exists a b, toLowerCase k = a ++ word ++ b.
Proof.
  unfold names_blocked. split.
  - intros (word & Hw & a & m & b & -> & Hm). exists word. split; [done|].
    apply (spells_lower _ _ (blocked_words_small _ Hw)) in Hm.
    exists (toLowerCase a), (toLowerCase b). by rewrite !toLowerCase_app, Hm.
  - intros (word & Hw & a & b & Hk). exists word. split; [done|].
    apply toLowerCase_split in Hk as (k1 & k2 & -> & H1 & H2).
    apply toLowerCase_split in H2 as (k3 & k4 & -> & H3 & H4).
    exists k1, k3, k4. split; [done|].
    by apply (spells_lower _ _ (blocked_words_small _ Hw)).
Qed.

Lemma sensitive_names (k : string) : sensitive k = true <-> names_blocked k.
Proof. rewrite sensitive_spec. symmetry. apply names_blocked_lower. Qed.

End sanitize_facts.

Section validate_facts.
Import JsString Schema.
Implicit Types (e : CapturedElement).

Lemma has_required_true e :
  has_required e = true <->
  is_Some (id e) /\ is_Some (timestamp e) /\ is_Some (url e) /\
  is_Some (selector e) /\ is_Some (html e) /\ is_Some (text e).
Proof.
  unfold has_required. simpl. rewrite !andb_true_iff, !bool_decide_eq_true. tauto.
Qed.

(** What [validateCapturedElement] accepts. *)
Lemma validate_true e :
  validateCapturedElement (AObject e) = true <->
  (exists i, id e = Some (PString i) /\ i <> "") /\
  (exists n, timestamp e = Some (PNumber n) /\ (0 < n)%Z) /\
  (exists u, url e = Some (PString u) /\ startsWith u "http" = true) /\
  (exists s, selector e = Some (PString s) /\ s <> "") /\
  is_Some (html e) /\ is_Some (text e).
Proof.
  unfold validateCapturedElement. split.
  - destruct (has_required e) eqn:Hreq; simpl; [|done].
    apply has_required_true in Hreq as (Hi & Ht & Hu & Hs & Hh & Hx).
    destruct Hi as [i Hi], Ht as [t Ht], Hu as [u Hu], Hs as [s Hs].
    rewrite Hi, Ht, Hu, Hs. simpl.
    destruct i as [| | | |i|]; simpl; try done.
    case_bool_decide as Hie; simpl; [done|].
    destruct t as [| | |n| |]; simpl; try done.
    destruct (n <=? 0)%Z eqn:Hn; simpl; [done|]. apply Z.leb_gt in Hn.
    destruct u as [| | | |u|]; simpl; try done.
    destruct (startsWith u "http") eqn:Hp; simpl; [|done].
    destruct s as [| | | |s|]; simpl; try done.
    case_bool_decide as Hse; simpl; [done|].
    intros _. split_and!; eauto.
  - intros ((i & Hi & Hie) & (n & Ht & Hn) & (u & Hu & Hp) & (s & Hs & Hse) & Hh & Hx).
    assert (Hreq : has_required e = true).
    { apply has_required_true. rewrite Hi, Ht, Hu, Hs. split_and!; eauto. }
    rewrite Hreq, Hi, Ht, Hu, Hs. simpl. rewrite Hp. simpl.
    rewrite !bool_decide_eq_false_2 by done. simpl.
    assert ((n <=? 0)%Z = false) as -> by (apply Z.leb_gt; lia). done.
Qed.

(** [validateCapturedElement] refuses a record exactly for one of the
    reasons above. *)
Lemma validate_false data :
  validateCapturedElement data = false <-> rejected data.
Proof.
  split.
  - destruct data as [p|e]; [intros _; constructor|].
    intros Hv. apply not_true_iff_false in Hv. rewrite validate_true in Hv.
    destruct (id e) as [i|] eqn:Hi; [|by apply rej_missing_id].
    destruct (timestamp e) as [t|] eqn:Ht; [|by apply rej_missing_timestamp].
    destruct (url e) as [u|] eqn:Hu; [|by apply rej_missing_url].
    destruct (selector e) as [s|] eqn:Hs; [|by apply rej_missing_selector].
    destruct (html e) as [h|] eqn:Hh; [|by apply rej_missing_html].
    destruct (text e) as [x|] eqn:Hx; [|by apply rej_missing_text].
    destruct (is_string i) eqn:Hsi; [|apply rej_id_type; by rewrite Hi].
    destruct (is_number t) eqn:Hnt; [|apply rej_timestamp_type; by rewrite Ht].
    destruct (is_string u) eqn:Hsu; [|apply rej_url_type; by rewrite Hu].
    destruct (is_string s) eqn:Hss; [|apply rej_selector_type; by rewrite Hs].
    destruct i as [| | | |i|]; try done. destruct t as [| | |n| |]; try done.
    destruct u as [| | | |u|]; try done. destruct s as [| | | |s|]; try done.
    destruct (decide (i = "")) as [->|Hie]; [by apply rej_id_empty|].
    destruct (decide (s = "")) as [->|Hse]; [by apply rej_selector_empty|].
    destruct (decide (n <= 0)%Z) as [Hn|Hn]; [by eapply rej_timestamp_not_positive|].
    destruct (startsWith u "http") eqn:Hp; [|by eapply rej_url_scheme].
    exfalso. apply Hv. split_and!; eauto. exists n. split; [done | lia].
  - intros Hr. destruct data as [p|e]; [done|].
    apply not_true_iff_false. rewrite validate_true.
    intros ((i & Hi & Hie) & (n & Ht & Hn) & (u & Hu & Hp) & (s & Hs & Hse) & Hh & Hx).
    inversion Hr; subst;
      repeat match goal with
             | H : is_string (prop ?o) = false, H' : ?o = Some _ |- _ =>
                 rewrite H' in H; simpl in H
             | H : is_number (prop ?o) = false, H' : ?o = Some _ |- _ =>
                 rewrite H' in H; simpl in H
             end; try congruence.
    + destruct Hh; congruence.
    + destruct Hx; congruence.
    + assert (n0 = n) by congruence. lia.
Qed.

End validate_facts.

(** ** The states of the store *)

Section store_facts.
Import JsString Schema Storage.
Implicit Types (w : world) (this : ElementStorage) (m : jsmap).

Lemma add_Ok_true now element w this w' this' :
  add now element w this = (w', this', Ok true) ->
  exists e h s,
    element = AObject e /\ validateCapturedElement (AObject e) = true /\
    sanitizeElement (objects w) e = (h, Ok s) /\
    w' = {| objects := h; timers := timers w |} /\
    this' = with_elements this
              (map_set (prop (id s)) {| data := s; expiresAt := now + ttl this |}
                 (evict this)).
Proof.
  unfold add. destruct (validateCapturedElement element) eqn:Hv; simpl; [|done].
  destruct element as [p|e]; [done|].
  destruct (sanitizeElement (objects w) e) as [h [s|]] eqn:Hs; [|done].
  intros [= <- <-]. by exists e, h, s.
Qed.

Lemma add_rejected now element w this :
  validateCapturedElement element = false ->
  add now element w this = (w, this, Ok false).
Proof. unfold add. by intros ->. Qed.

(** Whatever [add] answers, it leaves the configuration alone, and it
    changes the map only when it answers [true]. *)
Lemma add_cases now element w this :
  (add now element w this).1.2 = this \/
  exists w', (exists this', add now element w this = (w', this', Ok true)).
Proof.
  unfold add. destruct (validateCapturedElement element); simpl; [|by left].
  destruct element as [p|e]; [by left|].
  destruct (sanitizeElement (objects w) e) as [h [s|]]; [|by left].
  right. by eexists _, _.
Qed.

Lemma filter_stored P `{!forall kv, Decision (P kv)} m :
  Forall stored_ok m -> Forall stored_ok (filter P m).
Proof.
  rewrite !Forall_forall. intros Hall kv Hkv.
  apply list_elem_of_filter in Hkv as [_ Hkv]. auto.
Qed.

Lemma Forall_map_set k v m :
  stored_ok (k, v) -> Forall stored_ok m -> Forall stored_ok (map_set k v m).
Proof.
  intros Hkv. induction m as [|[k' v'] m IH]; simpl; intros Hm.
  - by constructor.
  - apply Forall_cons in Hm as [Hk' Hm]. case_decide; constructor; auto.
Qed.

Lemma evict_length this :
  1 <= maxElements this -> NoDup (keys (elements this)) ->
  length (elements this) <= maxElements this ->
  length (evict this) < maxElements this.
Proof.
  unfold evict. intros Hcap Hnd Hsize. case_decide as Hfull; [|lia].
  destruct (elements this) as [|[k v] m] eqn:Hm; simpl in *; [lia|].
  change (map_delete k ((k, v) :: m))
    with (map_delete (first_key ((k, v) :: m)) ((k, v) :: m)).
  rewrite (map_delete_first k v m Hnd). lia.
Qed.

Lemma store_inv_filter P `{!forall kv, Decision (P kv)} this :
  store_inv this -> store_inv (with_elements this (filter P (elements this))).
Proof.
  intros [Hnd Hsize Hcap Hst]. split; simpl; [| |done|by apply filter_stored].
  - unfold keys in *. apply NoDup_fmap_fst.
    + intros k v1 v2 H1 H2. apply list_elem_of_filter in H1 as [_ H1], H2 as [_ H2].
      apply (map_get_elem _ _ _ Hnd) in H1, H2. congruence.
    + apply NoDup_filter. eapply NoDup_fmap_1, Hnd.
  - etrans; [apply length_filter | done].
Qed.

Lemma cleanup_loop now (es : jsmap) m :
  foldl (fun m kv => if (expiresAt kv.2 <? now)%Z then map_delete kv.1 m else m) m es
  = filter (fun kv => kv.1 ∉ keys (filter (fun kv => ¬ live now kv) es)) m.
Proof.
  revert m. induction es as [|[k e] es IH]; intros m.
  - simpl. symmetry. apply filter_all. intros kv _. apply not_elem_of_nil.
  - cbn [foldl]. simpl snd. simpl fst. rewrite filter_cons.
    destruct (decide (¬ live now (k, e))) as [Hn|Hn]; unfold live in Hn; simpl in Hn.
    + assert ((expiresAt e <? now)%Z = true) as -> by (apply Z.ltb_lt; lia).
      rewrite IH. unfold map_delete. rewrite list_filter_filter.
      apply list_filter_iff. intros kv. unfold keys. rewrite fmap_cons.
      simpl fst. rewrite not_elem_of_cons. tauto.
    + assert ((expiresAt e <? now)%Z = false) as -> by (apply Z.ltb_ge; lia).
      apply IH.
Qed.

Lemma cleanup_spec now this :
  NoDup (keys (elements this)) ->
  cleanup now this = with_elements this (filter (live now) (elements this)).
Proof.
  intros Hnd. unfold cleanup. f_equal.
  by rewrite cleanup_loop, filter_not_expired_keys.
Qed.

End store_facts.

Section invariant.
Import JsString Schema Storage.
Implicit Types (w : world) (this : ElementStorage) (m : jsmap).

Lemma store_inv_constructor w o : store_inv (constructor w o).2.
Proof.
  split; simpl; [constructor | lia | | constructor].
  destruct (opt_maxElements o) as [[|n]|]; simpl; lia.
Qed.

(** A sanitized record still passes validation. *)
Lemma sanitizeElement_valid h e h' s :
  sanitizeElement h e = (h', Ok s) ->
  validateCapturedElement (AObject e) = true ->
  validateCapturedElement (AObject s) = true.
Proof.
  intros Hs. rewrite !validate_true.
  intros (Hi & Hn & Hu & Hsel & Hh & Hx).
  pose proof (sanitizeElement_inv _ _ _ _ Hs)
    as (_ & -> & -> & -> & -> & _ & _ & _ & Hx1 & Hx2 & _).
  split_and!; try done.
  - apply sanitizeElement_returns in Hs as (e1 & e2 & e3 & H1 & H2 & H3 & -> & _).
    destruct (screenshot_step_inv e3) as (_ & _ & _ & _ & -> & _).
    destruct (text_step_inv _ _ H3) as (_ & _ & _ & _ & -> & _).
    assert (is_Some (html e1)) as [p Hp].
    { unfold scrub_step in H1. destruct (truthy (prop (html e))).
      - destruct (prop (html e)); try done. injection H1 as <-. by eexists.
      - by injection H1 as <-. }
    unfold html_step in H2. destruct (_ && _).
    + destruct (truncate _ _); [|done]. by injection H2 as <-.
    + by injection H2 as <-.
  - destruct Hx as [p Hp]. destruct (is_string p) eqn:Hsp.
    + destruct p; try done. erewrite Hx1; eauto.
    + rewrite Hx2; [by rewrite Hp | by rewrite Hp].
Qed.

Lemma store_inv_delete k this :
  store_inv this -> store_inv (with_elements this (map_delete k (elements this))).
Proof. apply store_inv_filter. Qed.

Lemma store_inv_evict this :
  store_inv this -> store_inv (with_elements this (evict this)).
Proof.
  intros Hinv. unfold evict. case_decide; [by apply store_inv_delete|].
  by destruct this, Hinv.
Qed.

Lemma store_inv_add now element w this :
  store_inv this -> store_inv (add now element w this).1.2.
Proof.
  intros Hinv. destruct (add_cases now element w this) as [->|(w' & this' & Hadd)]; [done|].
  rewrite Hadd. simpl.
  apply add_Ok_true in Hadd as (e & h & s & -> & Hv & Hs & -> & ->).
  pose proof (sanitizeElement_valid _ _ _ _ Hs Hv) as Hv'.
  apply sanitizeElement_inv in Hs as (_ & Hid & _).
  pose proof (store_inv_evict _ Hinv) as [Hnd Hsize Hcap Hst]. simpl in *.
  split; simpl.
  - by apply NoDup_set.
  - rewrite length_set. destruct Hinv as [Hnd' Hsize' Hcap' _].
    pose proof (evict_length this Hcap' Hnd' Hsize'). case_decide; lia.
  - done.
  - apply Forall_map_set; [|done]. by split.
Qed.

Lemma store_inv_get now id this : store_inv this -> store_inv (get now id this).1.
Proof.
  intros Hinv. unfold get. destruct (map_get id (elements this)); [|done].
  destruct (expiresAt e <? now)%Z; [|done]. by apply store_inv_delete.
Qed.

Lemma store_inv_getAll now this : store_inv this -> store_inv (getAll now this).1.
Proof.
  intros Hinv. rewrite getAll_spec by apply Hinv. by apply store_inv_filter.
Qed.

Lemma store_inv_cleanup now this : store_inv this -> store_inv (cleanup now this).
Proof.
  intros Hinv. rewrite cleanup_spec by apply Hinv. by apply store_inv_filter.
Qed.

Lemma store_inv_clear this : store_inv this -> store_inv (clear this).
Proof.
  intros [_ _ Hcap _]. split; simpl; [constructor | lia | done | constructor].
Qed.

Lemma store_inv_destroy w this : store_inv this -> store_inv (destroy w this).2.
Proof.
  intros [_ _ Hcap _]. unfold destroy.
  destruct (cleanupTimer this); split; simpl; try done; try constructor; lia.
Qed.

Lemma store_inv_step σ c : store_inv σ.2 -> store_inv (step σ c).2.
Proof.
  intros Hinv. destruct c; simpl.
  - by apply store_inv_add.
  - by apply store_inv_get.
  - by apply store_inv_getAll.
  - by apply store_inv_delete.
  - by apply store_inv_clear.
  - by apply store_inv_getAll.
  - by apply store_inv_cleanup.
  - by apply store_inv_destroy.
  - done.
Qed.

(** Every state a store goes through satisfies the invariant. *)
Lemma run_inv w o cs : store_inv (run w o cs).2.
Proof.
  unfold run. induction cs as [|c cs IH] using rev_ind.
  - apply store_inv_constructor.
  - rewrite foldl_app. simpl. by apply store_inv_step.
Qed.

End invariant.

Section search_facts.
Import JsString Schema Storage.
Implicit Types (w : world) (this : ElementStorage) (d : CapturedElement).

Lemma maxElements_step σ c : maxElements (step σ c).2 = maxElements σ.2.
Proof.
  destruct c; simpl; try done.
  - destruct (add_cases now element σ.1 σ.2) as [->|(w' & this' & Hadd)]; [done|].
    rewrite Hadd. simpl.
    by apply add_Ok_true in Hadd as (e & h & s & _ & _ & _ & _ & ->).
  - unfold get. destruct (map_get _ _) as [ent|]; [|done].
    by destruct (_ <? _)%Z.
  - unfold destroy. by destruct (cleanupTimer σ.2).
Qed.

(** The capacity is the one given to the constructor, 50 by default. *)
Lemma run_maxElements w o cs :
  maxElements (run w o cs).2 = or_nat (opt_maxElements o) 50.
Proof.
  unfold run. induction cs as [|c cs IH] using rev_ind; [done|].
  rewrite foldl_app. simpl. by rewrite maxElements_step.
Qed.

Lemma filter_result_elem {A} (f : A -> result bool) (l r : list A) :
  filter_result f l = Ok r -> forall x, x ∈ r -> x ∈ l.
Proof.
  revert r. induction l as [|y l IH]; simpl; intros r.
  - intros [= <-] x Hx. done.
  - destruct (f y) as [b|]; simpl; [|done].
    destruct (filter_result f l) as [r'|]; simpl; [|done].
    intros [= <-] x Hx. destruct b.
    + apply elem_of_cons in Hx as [->|Hx]; [left | right; eauto].
    + right. eauto.
Qed.

(** When the predicate throws on no element, the result is the plain
    filter. *)
Lemma filter_result_Ok {A} (f : A -> result bool) (p : A -> bool) (l : list A) :
  (forall x, x ∈ l -> f x = Ok (p x)) ->
  filter_result f l = Ok (List.filter p l).
Proof.
  induction l as [|y l IH]; simpl; intros Hf; [done|].
  rewrite (Hf y) by left. simpl.
  rewrite IH by (intros x Hx; apply Hf; by right). simpl.
  by destruct (p y).
Qed.

Lemma matches_strings q d :
  strings_only d -> matches (toLowerCase q) d = Ok (record_contains q d).
Proof.
  intros (Hs & Ht & Hh & Hu). unfold matches, record_contains.
  destruct (prop (selector d)) as [| | | |s|]; try done.
  destruct (prop (text d)) as [| | | |t|]; try done.
  destruct (prop (html d)) as [| | | |h|]; try done.
  destruct (prop (url d)) as [| | | |u|]; try done.
  simpl. destruct (includes (toLowerCase s) _); simpl; [done|].
  destruct (includes (toLowerCase t) _); simpl; [done|].
  destruct (includes (toLowerCase h) _); simpl; done.
Qed.

(** On a store whose live records hold strings in the four searched
    fields, [search] returns the records of [getAll] that contain the
    query, in the order of [getAll]. *)
Lemma search_strings now q this :
  (forall d, d ∈ (getAll now this).2 -> strings_only d) ->
  search now q this
  = ((getAll now this).1, Ok (List.filter (record_contains q) (getAll now this).2)).
Proof.
  intros Hstr. unfold search. f_equal.
  apply filter_result_Ok. intros d Hd. by apply matches_strings, Hstr.
Qed.

End search_facts.

(** * The claims *)

(** ** Expiry on read *)

Section expiry_on_read.
Import JsString Schema Storage Sample.
Implicit Types (w : world) (this : ElementStorage) (d : CapturedElement).

(** C1, as stated, fails at the instant of expiry: an entry admitted at
    time 0 with a time to live of 10 has [expiresAt = 10], and at
    [now = 10] both [get] and [getAll] still return it. *)
Lemma read_at_expiry_instant :
  let this := (run empty_world (config 50 10) [CallAdd 0 (AObject (plain "a" 1))]).2 in
  map_get (PString "a") (elements this)
    = Some {| data := plain "a" 1; expiresAt := 10 |} /\
  (get 10 (PString "a") this).2 = Some (plain "a" 1) /\
  (getAll 10 this).2 = [plain "a" 1] /\
  (search 10 "div" this).2 = Ok [plain "a" 1].
Proof. vm_compute. by repeat split. Qed.

(** C1, amended: in every state of the store and at every time [now],
    [get] and [getAll] return an entry exactly when [now <= expiresAt]
    (an entry counts as expired only once [now > expiresAt]); [search]
    returns only such entries; [get] removes the entry it finds expired,
    [getAll] and [search] remove every expired entry. *)
Theorem reads_return_unexpired w o cs now :
  let this := (run w o cs).2 in
  (forall k d, (get now k this).2 = Some d <->
     exists ent, (k, ent) ∈ elements this /\ data ent = d /\ (now <= expiresAt ent)%Z) /\
  (forall k ent, (k, ent) ∈ elements this -> (expiresAt ent < now)%Z ->
     elements (get now k this).1 = map_delete k (elements this) /\
     k ∉ keys (elements (get now k this).1)) /\
  (forall d, d ∈ (getAll now this).2 <->
     exists k ent, (k, ent) ∈ elements this /\ data ent = d /\ (now <= expiresAt ent)%Z) /\
  elements (getAll now this).1 = filter (live now) (elements this) /\
  (forall q ds d, (search now q this).2 = Ok ds -> d ∈ ds ->
     exists k ent, (k, ent) ∈ elements this /\ data ent = d /\ (now <= expiresAt ent)%Z) /\
  (forall q, elements (search now q this).1 = filter (live now) (elements this)).
Proof.
  intros this. pose proof (run_inv w o cs) as [Hnd _ _ _]. fold this in Hnd.
  assert (Hall : forall d, d ∈ (getAll now this).2 <->
    exists k ent, (k, ent) ∈ elements this /\ data ent = d /\ (now <= expiresAt ent)%Z).
  { intros d. rewrite getAll_spec by done. simpl. rewrite sort_perm.
    rewrite list_elem_of_fmap. split.
    - intros ([k ent] & -> & Hin). apply list_elem_of_filter in Hin as [Hl Hin].
      by exists k, ent.
    - intros (k & ent & Hin & <- & Hl). exists (k, ent). split; [done|].
      by apply list_elem_of_filter. }
  split_and!.
  - intros k d. unfold get. split.
    + destruct (map_get k (elements this)) as [ent|] eqn:Hget; [|done].
      destruct (expiresAt ent <? now)%Z eqn:Hexp; [done|]. simpl.
      intros [= <-]. exists ent. apply Z.ltb_ge in Hexp.
      split_and!; [by apply map_get_Some | done | done].
    + intros (ent & Hin & <- & Hl). rewrite (map_get_elem _ _ _ Hnd Hin).
      by assert ((expiresAt ent <? now)%Z = false) as -> by (apply Z.ltb_ge; lia).
  - intros k ent Hin Hexp. unfold get. rewrite (map_get_elem _ _ _ Hnd Hin).
    assert ((expiresAt ent <? now)%Z = true) as -> by (apply Z.ltb_lt; lia).
    simpl. split; [done|]. rewrite keys_delete, list_elem_of_filter. intros [Hk _].
    by apply Hk.
  - exact Hall.
  - by rewrite getAll_spec.
  - intros q ds d Hs Hd. apply Hall.
    change (search now q this).2
      with (filter_result (matches (toLowerCase q)) (getAll now this).2) in Hs.
    eapply filter_result_elem; [exact Hs | exact Hd].
  - intros q. change (search now q this).1 with (getAll now this).1.
    by rewrite getAll_spec.
Qed.

End expiry_on_read.

(** ** Capacity and eviction *)

Section capacity.
Import JsString Schema Storage Sample.
Implicit Types (w : world) (this : ElementStorage) (d : CapturedElement).

(** C2, as stated, fails in two ways.  First, the test of [add] counts
    the entries that are in the map, expired or not: with a capacity of
    1 and a time to live of 10, the entry admitted at time 0 is no
    longer live at time 100, the live count is 0, and yet admitting a
    second record at time 100 evicts it.  Second, the evicted entry is
    the first key of the map, and a key that is admitted again keeps
    its place: after admitting a, b, a again and c into a store of
    capacity 3, the record under a is the third admission, the oldest
    surviving admission is b, and admitting d evicts a. *)
Lemma eviction_counts_map_entries_in_key_order :
  (let σ := run empty_world (config 1 10) [CallAdd 0 (AObject (plain "a" 1))] in
   let r := add 100 (AObject (plain "b" 2)) σ.1 σ.2 in
   length (filter (live 100) (elements σ.2)) = 0 /\
   maxElements σ.2 = 1 /\
   r.2 = Ok true /\
   keys (elements σ.2) = [PString "a"] /\
   keys (elements r.1.2) = [PString "b"]) /\
  (let σ := run empty_world (config 3 1000)
              [CallAdd 0 (AObject (plain "a" 1)); CallAdd 1 (AObject (plain "b" 2));
               CallAdd 2 (AObject (plain "a" 3)); CallAdd 3 (AObject (plain "c" 4))] in
   let r := add 4 (AObject (plain "d" 5)) σ.1 σ.2 in
   elements σ.2
     = [(PString "a", {| data := plain "a" 3; expiresAt := 1002 |});
        (PString "b", {| data := plain "b" 2; expiresAt := 1001 |});
        (PString "c", {| data := plain "c" 4; expiresAt := 1003 |})] /\
   r.2 = Ok true /\
   keys (elements r.1.2) = [PString "b"; PString "c"; PString "d"]).
Proof. vm_compute. by repeat split. Qed.

(** C2, amended: when [add] admits a record, an entry is evicted
    exactly when the number of entries in the map, expired ones that
    have not been purged included, has reached [maxElements] (50 by
    default); the evicted entry is then the single entry under the first
    key of the map, in the insertion order of the keys, whatever the
    timestamps; and in every state of the store the number of entries is
    at most [maxElements]. *)
Theorem add_evicts_first_key w o cs now element w' this' :
  let σ := run w o cs in
  add now element σ.1 σ.2 = (w', this', Ok true) ->
  (exists s,
     let new := {| data := s; expiresAt := now + ttl σ.2 |} in
     (maxElements σ.2 <= length (elements σ.2) ->
        exists k v m, elements σ.2 = (k, v) :: m /\ (k ∉ keys m) /\
          elements this' = map_set (prop (id s)) new m) /\
     (length (elements σ.2) < maxElements σ.2 ->
        elements this' = map_set (prop (id s)) new (elements σ.2))) /\
  maxElements σ.2 = or_nat (opt_maxElements o) 50 /\
  (forall cs', length (elements (run w o cs').2) <= or_nat (opt_maxElements o) 50).
Proof.
  intros σ Hadd. split_and!.
  - apply add_Ok_true in Hadd as (e & h & s & -> & Hv & Hs & -> & ->).
    exists s. simpl. unfold evict. split.
    + intros Hfull. rewrite decide_True by done.
      pose proof (run_inv w o cs) as [Hnd Hsize Hcap _]. fold σ in Hnd, Hsize, Hcap.
      destruct (elements σ.2) as [|[k v] m] eqn:Hm; [simpl in Hfull; lia|].
      exists k, v, m. split; [done|]. split.
      * unfold keys in Hnd. rewrite fmap_cons in Hnd. by apply NoDup_cons in Hnd as [? _].
      * by rewrite map_delete_first.
    + intros Hroom. rewrite decide_False by lia. done.
  - apply run_maxElements.
  - intros cs'. rewrite <- (run_maxElements w o cs'). apply run_inv.
Qed.

Lemma add_evicts_first_key_witness :
  let σ := run empty_world (config 1 10) [CallAdd 0 (AObject (plain "a" 1))] in
  let r := add 5 (AObject (plain "b" 2)) σ.1 σ.2 in
  r = (r.1.1, r.1.2, Ok true) /\
  (exists s,
     let new := {| data := s; expiresAt := 5 + ttl σ.2 |} in
     (maxElements σ.2 <= length (elements σ.2) ->
        exists k v m, elements σ.2 = (k, v) :: m /\ (k ∉ keys m) /\
          elements r.1.2 = map_set (prop (id s)) new m) /\
     (length (elements σ.2) < maxElements σ.2 ->
        elements r.1.2 = map_set (prop (id s)) new (elements σ.2))).
Proof.
  intros σ r.
  assert (Hadd : r = (r.1.1, r.1.2, Ok true)) by (vm_compute; reflexivity).
  split; [exact Hadd|].
  exact (proj1 (add_evicts_first_key empty_world (config 1 10)
                  [CallAdd 0 (AObject (plain "a" 1))] 5 (AObject (plain "b" 2))
                  r.1.1 r.1.2 Hadd)).
Defined.

End capacity.

(** ** Listing and searching *)

Section listing.
Import JsString Schema Storage Sample.
Implicit Types (w : world) (this : ElementStorage) (d : CapturedElement).



(** C6: the record [numeric_text] passes validation and is admitted,
    and a search whose query is not found in its selector then throws a
    [TypeError] where the claim promises the sequence of the matching
    records. *)
Theorem search_throws_on_numeric_text :
  let r := add 0 (AObject numeric_text) empty_world (constructor empty_world (config 50 1000)).2 in
  validateCapturedElement (AObject numeric_text) = true /\
  r.2 = Ok true /\
  (getAll 1 r.1.2).2 = [numeric_text] /\
  (search 1 "hi" r.1.2).2 = Throw TypeError.
Proof. vm_compute. by repeat split. Qed.

(** As long as every live record has strings in [text] and [html],
    [search] returns the live records one of whose
    four fields contains the query, ignoring case, in the order of
    [getAll]. *)
Lemma search_returns_matches w o cs now q :
  let this := (run w o cs).2 in
  (forall d, d ∈ (getAll now this).2 ->
     is_string (prop (text d)) = true /\ is_string (prop (html d)) = true) ->
  (search now q this).2 = Ok (List.filter (record_contains q) (getAll now this).2).
Proof.
  intros this Hstr. rewrite search_strings; [done|].
  intros d Hd. destruct (Hstr d Hd) as [Ht Hh].
  pose proof (run_inv w o cs) as [Hnd _ _ Hok]. fold this in Hnd, Hok.
  rewrite getAll_spec in Hd by done. simpl in Hd. rewrite sort_perm in Hd.
  apply list_elem_of_fmap in Hd as ([k ent] & -> & Hin).
  apply list_elem_of_filter in Hin as [_ Hin].
  rewrite Forall_forall in Hok. destruct (Hok _ Hin) as [_ Hv]. simpl in *.
  apply validate_true in Hv as (_ & _ & (u & Hu & _) & (s & Hs & _) & _).
  unfold strings_only. by rewrite Hu, Hs.
Qed.

(** C10: validation asks only that [html] and [text] be present, so
    there is a record that is admitted and on which [search] then throws
    a [TypeError]: [search] is not total on the states of the store. *)
Theorem search_not_total :
  exists (element : CapturedElement) (query : string) w o cs now,
    (forall h t, validateCapturedElement
                   (AObject (record "x" 1 h t None)) = true) /\
    validateCapturedElement (AObject element) = true /\
    (add now (AObject element) (run w o cs).1 (run w o cs).2).2 = Ok true /\
    (search now query (run w o (cs ++ [CallAdd now (AObject element)])).2).2
      = Throw TypeError.
Proof.
  exists numeric_text, "hi", empty_world, (config 50 1000), [], 0%Z.
  split; [intros h t; reflexivity|]. vm_compute. by repeat split.
Qed.

End listing.

(** ** Sanitization *)

Section sanitization.
Import JsString Schema Storage Sample.
Implicit Types (w : world) (this : ElementStorage) (e d : CapturedElement).

(** C3: the copy made by [sanitizeElement] is shallow.  The result holds
    the same reference to the attribute object as the caller's record,
    and the redaction is written into that object: after the call the
    caller's own [attributes] has lost the value of its [data-token]
    key. *)
Theorem sanitizeElement_writes_caller_attributes :
  exists h' s,
    sanitizeElement caller_heap with_token = (h', Ok s) /\
    attributes with_token = Some (VRef 0) /\
    attributes s = Some (VRef 0) /\
    read caller_heap 0 "data-token" = Some (VPrim (PString "abc")) /\
    read h' 0 "data-token" = Some (VPrim (PString "[REDACTED]")) /\
    h' <> caller_heap.
Proof.
  exists (redact_step caller_heap with_token), with_token.
  split; [vm_compute; reflexivity|].
  split; [reflexivity|]. split; [reflexivity|].
  split; [vm_compute; reflexivity|]. split; [vm_compute; reflexivity|].
  intros Heq. apply (f_equal (fun h => read h 0 "data-token")) in Heq.
  vm_compute in Heq. discriminate Heq.
Qed.

Lemma add_stores_sanitized now e w this w' this' :
  add now (AObject e) w this = (w', this', Ok true) ->
  exists s,
    sanitizeElement (objects w) e = (objects w', Ok s) /\
    map_get (prop (id e)) (elements this')
      = Some {| data := s; expiresAt := now + ttl this |}.
Proof.
  intros Hadd. apply add_Ok_true in Hadd as (e' & h & s & [= <-] & _ & Hs & -> & ->).
  exists s. split; [done|]. simpl.
  apply sanitizeElement_inv in Hs as (_ & <- & _).
  rewrite map_get_set. by rewrite decide_True.
Qed.

Lemma cap_short (max : Z) (x : string) :
  (str_length x <= max)%Z -> cap max x = x.
Proof. unfold cap. intros Hx. by assert ((max <? str_length x)%Z = false) as -> by lia. Qed.

Lemma cap_long (max : Z) (x : string) :
  (0 <= max < str_length x)%Z ->
  exists p r, cap max x = p ++ TRUNCATED /\ x = p ++ r /\ str_length p = max.
Proof.
  unfold cap. intros Hx. assert ((max <? str_length x)%Z = true) as -> by lia.
  destruct (substring0_spec max x Hx) as [Hlen [r Hr]].
  by exists (substring0 max x), r.
Qed.

(** C4, as stated, fails for a body that holds a script element: the
    body is scrubbed before it is measured, so a body of 27 units is
    not stored unchanged. *)
Lemma short_body_is_scrubbed :
  let body := "<script>x</script><p>hi</p>" in
  let r := add 0 (AObject (record "s" 1 (PString body) (PString "hi") None))
             empty_world (constructor empty_world (config 50 1000)).2 in
  (str_length body <= MAX_HTML_SIZE)%Z /\
  r.2 = Ok true /\
  html ∘ data <$> map_get (PString "s") (elements r.1.2)
    = Some (Some (PString "<p>hi</p>")).
Proof. vm_compute. by repeat split. Qed.

(** C4, amended: for an admitted record whose [html] is a string, the
    stored [html] is the input with its script elements and inline
    event handlers removed, and then, when what is left is longer than
    50,000 units, cut to its first 50,000 units followed by the marker
    (unchanged when it is not longer).  A string [text] is stored
    unchanged up to 10,000 units and otherwise cut to its first 10,000
    units followed by the marker.  A string [screenshot] longer than
    1,000,000 units is stored as the empty string with
    [_screenshotTruncated] set to [true], and is stored whole
    otherwise.  [cap max x] is [x] when [x] has at most [max] units, and
    the first [max] units of [x] followed by the marker when it has
    more. *)
Theorem add_caps_sizes now e w this w' this' :
  add now (AObject e) w this = (w', this', Ok true) ->
  exists ent,
    map_get (prop (id e)) (elements this') = Some ent /\
    (forall x, html e = Some (PString x) ->
       html (data ent) = Some (PString (cap MAX_HTML_SIZE (scrub x)))) /\
    (forall x, text e = Some (PString x) ->
       text (data ent) = Some (PString (cap MAX_TEXT_SIZE x))) /\
    (forall x, screenshot e = Some (PString x) ->
       if (MAX_SCREENSHOT_SIZE <? str_length x)%Z
       then screenshot (data ent) = Some (PString "") /\
            _screenshotTruncated (data ent) = Some (PBool true)
       else screenshot (data ent) = Some (PString x) /\
            _screenshotTruncated (data ent) = _screenshotTruncated e) /\
    (forall max x, (0 <= max)%Z ->
       ((str_length x <= max)%Z -> cap max x = x) /\
       ((max < str_length x)%Z ->
          exists p r, cap max x = p ++ TRUNCATED /\ x = p ++ r /\ str_length p = max)).
Proof.
  intros Hadd. apply add_stores_sanitized in Hadd as (s & Hs & Hget).
  eexists. split; [exact Hget|]. simpl.
  apply sanitizeElement_inv in Hs as (_ & _ & _ & _ & _ & _ & _ & Hh & Ht & _ & Hc).
  split_and!; try done.
  intros max x Hmax. split; [apply cap_short|].
  intros Hx. apply cap_long. lia.
Qed.

(** [add] admits every record that passes validation and on which
    [sanitizeElement] does not throw. *)
Lemma add_accepts now e w this :
  validateCapturedElement (AObject e) = true ->
  html_throws e = false -> text_throws e = false ->
  exists w' this', add now (AObject e) w this = (w', this', Ok true).
Proof.
  intros Hv Hh Ht. unfold add. rewrite Hv. cbn [negb].
  destruct (sanitizeElement_Ok (objects w) e Hh Ht) as (s & Hs).
  rewrite Hs. eexists _, _. reflexivity.
Qed.

Lemma add_caps_sizes_witness :
  let r := add 0 (AObject oversized) empty_world
             (constructor empty_world (config 50 1000)).2 in
  r = (r.1.1, r.1.2, Ok true) /\
  exists ent,
    map_get (PString "big") (elements r.1.2) = Some ent /\
    html (data ent)
      = Some (PString (cap MAX_HTML_SIZE (scrub (replicate (Z.to_nat 50001) "a")))) /\
    text (data ent)
      = Some (PString (cap MAX_TEXT_SIZE (replicate (Z.to_nat 10001) "b"))) /\
    screenshot (data ent) = Some (PString "") /\
    _screenshotTruncated (data ent) = Some (PBool true).
Proof.
  intros r.
  assert (Hadd : r = (r.1.1, r.1.2, Ok true)).
  { destruct (add_accepts 0 oversized empty_world
                (constructor empty_world (config 50 1000)).2)
      as (w' & this' & Hr); [vm_compute; reflexivity | reflexivity | reflexivity |].
    unfold r. by rewrite Hr. }
  split; [exact Hadd|].
  destruct (add_caps_sizes 0 oversized empty_world
              (constructor empty_world (config 50 1000)).2 r.1.1 r.1.2 Hadd)
    as (ent & Hget & Hh & Ht & Hc & _).
  exists ent. split; [exact Hget|].
  split; [by apply Hh|]. split; [by apply Ht|].
  specialize (Hc _ eq_refl). rewrite str_length_replicate in Hc. exact Hc.
Defined.

(** C9: when a record whose [attributes] is an object is admitted, the
    stored record refers to that object, and in it every key that
    contains one of [password], [token], [secret], [key], [auth],
    written in any mix of capitals and small letters, holds
    ['[REDACTED]'], whatever it held before, while every other key holds
    what it held before; no key is added or removed.  The keys in
    question are those whose lower-case form contains one of the five
    words. *)
Theorem add_redacts_sensitive_attributes now e w this w' this' (l : loc) (o : object) :
  add now (AObject e) w this = (w', this', Ok true) ->
  attributes e = Some (VRef l) ->
  objects w !! l = Some o ->
  exists ent o',
    map_get (prop (id e)) (elements this') = Some ent /\
    attributes (data ent) = Some (VRef l) /\
    objects w' !! l = Some o' /\
    (forall k v, o !! k = Some v -> names_blocked k ->
       o' !! k = Some (VPrim (PString "[REDACTED]"))) /\
    (forall k v, o !! k = Some v -> ~ names_blocked k -> o' !! k = Some v) /\
    (forall k, o !! k = None -> o' !! k = None) /\
    (forall k, names_blocked k <->
       exists word, word ∈ ["password"; "token"; "secret"; "key"; "auth"] /\
         exists a b, toLowerCase k = a ++ word ++ b).
Proof.
  intros Hadd Ha Ho. apply add_stores_sanitized in Hadd as (s & Hs & Hget).
  apply sanitizeElement_inv in Hs as (Hh & _ & _ & _ & _ & Has & _).
  exists {| data := s; expiresAt := now + ttl this |}, (redact o).
  split; [exact Hget|]. split; [simpl; congruence|]. split.
  - rewrite Hh. unfold redact_step. rewrite Ha, Ho. apply lookup_insert_eq.
  - split_and!.
    + intros k v Hk Hb. apply sensitive_names in Hb. by rewrite redact_lookup, Hk, Hb.
    + intros k v Hk Hb. rewrite redact_lookup, Hk. simpl.
      destruct (sensitive k) eqn:Hsk; [|done]. by apply sensitive_names in Hsk.
    + intros k Hk. by rewrite redact_lookup, Hk.
    + apply names_blocked_lower.
Qed.

Lemma add_redacts_sensitive_attributes_witness :
  let this := (constructor empty_world (config 50 1000)).2 in
  let w := {| objects := capital_heap; timers := ∅ |} in
  let r := add 0 (AObject with_api_key) w this in
  r = (r.1.1, r.1.2, Ok true) /\
  attributes with_api_key = Some (VRef 0) /\
  objects w !! 0 = Some capital_attributes /\
  exists ent o',
    map_get (PString "k") (elements r.1.2) = Some ent /\
    attributes (data ent) = Some (VRef 0) /\
    objects r.1.1 !! 0 = Some o' /\
    o' !! "API_KEY" = Some (VPrim (PString "[REDACTED]")) /\
    o' !! "X-Auth-Id" = Some (VPrim (PString "[REDACTED]")) /\
    o' !! "Class" = Some (VPrim (PString "btn")).
Proof.
  intros this w r.
  assert (Hadd : r = (r.1.1, r.1.2, Ok true)) by (vm_compute; reflexivity).
  assert (Ho : objects w !! 0 = Some capital_attributes) by (vm_compute; reflexivity).
  split; [exact Hadd|]. split; [reflexivity|]. split; [exact Ho|].
  destruct (add_redacts_sensitive_attributes 0 with_api_key w this r.1.1 r.1.2 0
              capital_attributes Hadd eq_refl Ho)
    as (ent & o' & Hget & Ha & Ho' & Hk & Hk' & _).
  exists ent, o'. split; [exact Hget|]. split; [exact Ha|]. split; [exact Ho'|].
  split_and!.
  - apply (Hk "API_KEY" (VPrim (PString "k-1"))); [vm_compute; reflexivity|].
    exists "key". split; [do 3 right; left|]. exists "API_", "KEY", "". split; reflexivity.
  - apply (Hk "X-Auth-Id" (VPrim (PString "u-2"))); [vm_compute; reflexivity|].
    exists "auth". split; [do 4 right; left|]. exists "X-", "Auth", "-Id". split; reflexivity.
  - apply (Hk' "Class" (VPrim (PString "btn"))); [vm_compute; reflexivity|].
    intros Hb. apply sensitive_names in Hb. vm_compute in Hb. discriminate Hb.
Defined.

End sanitization.

(** ** Rejection and teardown *)

Section rejection_and_teardown.
Import JsString Schema Storage Sample HandlerSample.
Implicit Types (w : world) (this : ElementStorage).

(** A value refused by validation, for a missing required property, an
    [id], [timestamp], [url] or [selector] of the wrong type, a
    timestamp that is not positive, a [url] that does not start with
    [http], an empty [selector] or an empty [id], makes
    [validateCapturedElement] answer [false], and [add] then answers
    [false] and leaves the store, its configuration and the shared
    objects exactly as they were. *)
Lemma add_rejected_leaves_state now data w this :
  rejected data ->
  validateCapturedElement data = false /\
  add now data w this = (w, this, Ok false).
Proof.
  intros Hr. apply validate_false in Hr. split; [done|]. by apply add_rejected.
Qed.

Lemma add_rejected_leaves_state_witness :
  let this := (run empty_world (config 2 1000)
                 [CallAdd 0 (AObject (plain "a" 1)); CallAdd 1 (AObject (plain "b" 2))]).2 in
  let data := AObject (plain "c" 0) in
  rejected data /\
  validateCapturedElement data = false /\
  add 5 data empty_world this = (empty_world, this, Ok false).
Proof.
  intros this data.
  assert (Hr : rejected data).
  { apply (rej_timestamp_not_positive (plain "c" 0) 0); [reflexivity | lia]. }
  split; [exact Hr|].
  exact (add_rejected_leaves_state 5 data empty_world this Hr).
Defined.

(** C7: [validateCapturedElement] tests the type of [id], [timestamp],
    [url] and [selector], and of [html] and [text] only that they are
    there: a record that passes it passes it with any other value in
    [html] and [text].  So a record whose [text] is of the wrong type is
    not refused: on a new store [add] answers [true] for the record
    whose [text] is the number 123 and stores it as it is, and for the
    record whose [html] is the number 7 it does not answer at all, it
    throws. *)
Theorem add_admits_wrong_type_text :
  let this := (constructor empty_world (config 50 1000)).2 in
  let r := add 0 (AObject numeric_text) empty_world this in
  (forall e hv tv, validateCapturedElement (AObject e) = true ->
     validateCapturedElement (AObject (set_html (set_text e tv) hv)) = true) /\
  text numeric_text = Some (PNumber 123) /\
  validateCapturedElement (AObject numeric_text) = true /\
  r.2 = Ok true /\
  elements this = [] /\
  data <$> map_get (PString "n") (elements r.1.2) = Some numeric_text /\
  html numeric_html = Some (PNumber 7) /\
  validateCapturedElement (AObject numeric_html) = true /\
  (add 0 (AObject numeric_html) empty_world this).2 = Throw TypeError.
Proof.
  intros this r. split.
  - intros e hv tv. rewrite !validate_true. simpl.
    intros (Hi & Hn & Hu & Hs & _ & _). split_and!; try done; by eexists.
  - vm_compute. by repeat split.
Qed.

(** C8: [destroy] never fails, and calling it a second time changes
    nothing: after one call as after two the map is empty, the store
    holds no timer, and the timer it held is no longer running. *)
Theorem destroy_idempotent w this :
  let σ1 := destroy w this in
  let σ2 := destroy σ1.1 σ1.2 in
  σ2 = σ1 /\
  elements σ1.2 = [] /\
  cleanupTimer σ1.2 = None /\
  (forall t, cleanupTimer this = Some t -> t ∉ timers σ1.1) /\
  elements σ2.2 = [] /\
  cleanupTimer σ2.2 = None.
Proof.
  unfold destroy. destruct (cleanupTimer this) as [t|] eqn:Ht; simpl.
  - split_and!; try done. intros t' [= <-].
    rewrite elem_of_difference, elem_of_singleton. by intros [_ Hne].
  - rewrite Ht. simpl. split_and!; done.
Qed.

End rejection_and_teardown.

(** * Further properties of the store *)

Section store_helpers.
Import JsString Schema Storage.
Implicit Types (w : world) (this : ElementStorage) (m : jsmap) (k : prim).

Lemma live_mono (t now : Z) kv : (t <= now)%Z -> live now kv -> live t kv.
Proof. unfold live. lia. Qed.

Lemma filter_live_twice (t now : Z) m :
  (t <= now)%Z -> filter (live now) (filter (live t) m) = filter (live now) m.
Proof.
  intros Ht. rewrite list_filter_filter. apply list_filter_iff.
  intros kv. split; [tauto|]. intros Hl. split; [done|]. by eapply live_mono.
Qed.

Lemma map_get_filter (P : prim * entry -> Prop) `{!forall kv, Decision (P kv)} m k :
  NoDup (keys m) ->
  map_get k (filter P m)
  = match map_get k m with
    | Some v => if decide (P (k, v)) then Some v else None
    | None => None
    end.
Proof.
  unfold keys. induction m as [|[k' v'] m IH]; [done|].
  rewrite fmap_cons, NoDup_cons. simpl fst. intros [Hk' Hnd].
  rewrite filter_cons. simpl map_get. destruct (decide (k' = k)) as [->|Hne].
  - destruct (decide (P (k, v'))) as [HP|HP].
    + simpl. by rewrite decide_True.
    + rewrite IH by done.
      assert (map_get k m = None) as -> by (by apply map_get_None). done.
  - destruct (decide (P (k', v'))); [simpl; rewrite decide_False by done|]; by apply IH.
Qed.

Lemma map_get_delete m k k' :
  map_get k' (map_delete k m) = if decide (k = k') then None else map_get k' m.
Proof.
  unfold map_delete. induction m as [|[k0 v0] m IH]; simpl.
  - by case_decide.
  - rewrite filter_cons. simpl fst. destruct (decide (k0 <> k)) as [Hne|He].
    + simpl. rewrite IH. repeat case_decide; congruence.
    + apply dec_stable in He. subst k0. rewrite IH.
      repeat case_decide; congruence.
Qed.

(** Deleting an entry that is not live does not change the live ones. *)
Lemma filter_live_delete now m k :
  NoDup (keys m) ->
  (forall v, map_get k m = Some v -> ¬ live now (k, v)) ->
  filter (live now) (map_delete k m) = filter (live now) m.
Proof.
  intros Hnd Hk. unfold map_delete. rewrite list_filter_filter.
  assert (Hin : forall kv, kv ∈ m -> (live now kv /\ kv.1 <> k) <-> live now kv).
  { intros [k' v'] Hkv. simpl. split; [tauto|]. intros Hl. split; [done|].
    intros ->. apply (Hk v'); [|done]. by apply map_get_elem. }
  clear Hnd Hk. induction m as [|kv m IH]; [done|].
  rewrite !filter_cons. rewrite IH by (intros kv' Hkv'; apply Hin; by right).
  specialize (Hin kv (list_elem_of_here _ _)). repeat case_decide; tauto.
Qed.

Lemma get_elements now k this :
  elements (get now k this).1 = elements this \/
  (elements (get now k this).1 = map_delete k (elements this) /\
   forall v, map_get k (elements this) = Some v -> ¬ live now (k, v)).
Proof.
  unfold get. destruct (map_get k (elements this)) as [ent|] eqn:Hget; [|by left].
  destruct (expiresAt ent <? now)%Z eqn:Hexp; [|by left].
  right. split; [done|]. intros v [= <-]. unfold live. simpl.
  apply Z.ltb_lt in Hexp. lia.
Qed.

End store_helpers.

Section store_round_trips.
Import JsString Schema Storage Sample.
Implicit Types (w : world) (this : ElementStorage) (m : jsmap) (k : prim).

(** A record that [add] has admitted at time [now] is what [get] returns
    for its id at every time up to [now + ttl], leaving the store as it
    is; after that time [get] answers [null] and the id is gone from the
    map. *)
Theorem add_then_get now element w this w' this' (t : Z) :
  add now element w this = (w', this', Ok true) ->
  exists e s,
    element = AObject e /\
    sanitizeElement (objects w) e = (objects w', Ok s) /\
    ((t <= now + ttl this)%Z -> get t (prop (id e)) this' = (this', Some s)) /\
    ((now + ttl this < t)%Z ->
       (get t (prop (id e)) this').2 = None /\
       map_get (prop (id e)) (elements (get t (prop (id e)) this').1) = None).
Proof.
  intros Hadd. apply add_Ok_true in Hadd as (e & h & s & -> & _ & Hs & -> & ->).
  exists e, s. split; [done|]. split; [done|].
  pose proof (sanitizeElement_inv _ _ _ _ Hs) as (_ & Hid & _).
  unfold get. simpl elements. rewrite <- Hid, map_get_set, decide_True by done.
  simpl expiresAt. split.
  - intros Ht. by assert ((now + ttl this <? t)%Z = false) as -> by lia.
  - intros Ht. assert ((now + ttl this <? t)%Z = true) as -> by lia.
    split; [done|]. simpl. rewrite map_get_delete. by rewrite decide_True.
Qed.

Lemma add_then_get_witness :
  let this := (constructor empty_world (config 50 1000)).2 in
  let r := add 0 (AObject (plain "a" 1)) empty_world this in
  r = (r.1.1, r.1.2, Ok true) /\
  get 1000 (PString "a") r.1.2 = (r.1.2, Some (plain "a" 1)) /\
  (get 1001 (PString "a") r.1.2).2 = None.
Proof.
  intros this r.
  assert (Hadd : r = (r.1.1, r.1.2, Ok true)) by (vm_compute; reflexivity).
  split; [exact Hadd|].
  destruct (add_then_get 0 (AObject (plain "a" 1)) empty_world this r.1.1 r.1.2 1000 Hadd)
    as (e & s & He & Hs & Hlive & _).
  destruct (add_then_get 0 (AObject (plain "a" 1)) empty_world this r.1.1 r.1.2 1001 Hadd)
    as (e' & s' & He' & _ & _ & Hdead).
  injection He as <-. injection He' as <-.
  assert (Hs0 : sanitizeElement (objects empty_world) (plain "a" 1)
                = (objects r.1.1, Ok (plain "a" 1))) by (vm_compute; reflexivity).
  rewrite Hs0 in Hs. injection Hs as <-.
  split.
  - apply Hlive. vm_compute. discriminate.
  - apply Hdead. vm_compute. reflexivity.
Defined.

(** [remove] answers [true] exactly when the id is a key of the map,
    expired or not; afterwards [get] answers [null] for that id at every
    time, every other id reads as before, and in a state of the store the
    map has one entry less when the answer is [true]. *)
Theorem remove_forgets_one w o cs (k : prim) :
  let this := (run w o cs).2 in
  let r := remove k this in
  (r.2 = true <-> k ∈ keys (elements this)) /\
  (forall t, (get t k r.1).2 = None) /\
  (forall t k', k' <> k -> (get t k' r.1).2 = (get t k' this).2) /\
  (r.2 = true -> S (length (elements r.1)) = length (elements this)) /\
  (r.2 = false -> r.1 = this).
Proof.
  intros this r. pose proof (run_inv w o cs) as [Hnd _ _ _]. fold this in Hnd.
  assert (Hhas : r.2 = true <-> k ∈ keys (elements this)).
  { unfold r, remove, map_has. simpl. rewrite bool_decide_eq_true.
    rewrite <- not_eq_None_Some, map_get_None. split; [apply dec_stable | tauto]. }
  split_and!.
  - exact Hhas.
  - intros t. unfold get, r, remove. simpl. by rewrite map_get_delete, decide_True.
  - intros t k' Hne. unfold get, r, remove. simpl.
    rewrite map_get_delete, decide_False by done.
    destruct (map_get k' (elements this)) as [ent|]; [|done]. by destruct (_ <? _)%Z.
  - intros Hr. apply Hhas in Hr. unfold r, remove. simpl.
    rewrite <- (length_fmap fst (map_delete k (elements this))),
            <- (length_fmap fst (elements this)).
    fold (keys (map_delete k (elements this))). fold (keys (elements this)).
    rewrite keys_delete. clear Hhas. revert Hnd Hr.
    generalize (keys (elements this)). intros ks. induction ks as [|k0 ks IH]; intros Hnd Hr.
    + by apply elem_of_nil in Hr.
    + apply NoDup_cons in Hnd as [Hk0 Hnd]. rewrite filter_cons.
      apply elem_of_cons in Hr as [->|Hr].
      * rewrite decide_False by (intros Hne; by apply Hne). simpl. f_equal.
        f_equal. apply filter_all. intros k' Hk' ->. done.
      * rewrite decide_True by (intros ->; done). simpl. f_equal. by apply IH.
  - intros Hr. unfold r, remove. simpl.
    assert (Hk : k ∉ keys (elements this)).
    { intros Hk. apply Hhas in Hk. congruence. }
    rewrite map_delete_fresh by done. by destruct this.
Qed.

End store_round_trips.

Section store_reads.
Import JsString Schema Storage Stats Sample.
Implicit Types (w : world) (this : ElementStorage) (m : jsmap) (k : prim).

(** The sweep cannot be observed by a read: whether or not [cleanup] has
    run at an earlier time [t], [getAll] returns the same records and
    leaves the same map, [get] returns the same record and [search] the
    same result. *)
Theorem cleanup_is_invisible w o cs (t now : Z) :
  let this := (run w o cs).2 in
  (t <= now)%Z ->
  getAll now (cleanup t this) = getAll now this /\
  (forall k, (get now k (cleanup t this)).2 = (get now k this).2) /\
  (forall q, search now q (cleanup t this) = search now q this).
Proof.
  intros this Ht. pose proof (run_inv w o cs) as Hinv. fold this in Hinv.
  pose proof (inv_nodup _ Hinv) as Hnd.
  pose proof (inv_nodup _ (store_inv_cleanup t _ Hinv)) as Hnd'.
  assert (Hall : getAll now (cleanup t this) = getAll now this).
  { rewrite (getAll_spec now (cleanup t this)) by done.
    rewrite (getAll_spec now this) by done.
    rewrite cleanup_spec by done. simpl. by rewrite filter_live_twice. }
  split_and!.
  - exact Hall.
  - intros k. unfold get. rewrite cleanup_spec by done. simpl.
    rewrite map_get_filter by done.
    destruct (map_get k (elements this)) as [ent|]; [|done].
    destruct (decide (live t (k, ent))) as [Hl|Hl]; [by destruct (_ <? _)%Z|].
    unfold live in Hl. simpl in Hl.
    by assert ((expiresAt ent <? now)%Z = true) as -> by lia.
  - intros q. unfold search. by rewrite Hall.
Qed.

Lemma cleanup_is_invisible_witness :
  let this := (run empty_world (config 50 10)
                 [CallAdd 0 (AObject (plain "a" 1)); CallAdd 5 (AObject (plain "b" 2))]).2 in
  (12 <= 13)%Z /\
  elements (cleanup 12 this) <> elements this /\
  getAll 13 (cleanup 12 this) = getAll 13 this.
Proof.
  intros this. split; [lia|]. split; [vm_compute; discriminate|].
  apply (cleanup_is_invisible empty_world (config 50 10)
           [CallAdd 0 (AObject (plain "a" 1)); CallAdd 5 (AObject (plain "b" 2))] 12 13).
  lia.
Defined.

(** The removal of expired entries by a read cannot be observed by a
    later read: after [get], [getAll] or [search] at time [t], a
    [getAll] at a later time returns the records, and leaves the map, it
    would have without that first read. *)
Theorem lazy_expiry_is_invisible w o cs (t now : Z) :
  let this := (run w o cs).2 in
  (t <= now)%Z ->
  (forall k, getAll now (get t k this).1 = getAll now this) /\
  getAll now (getAll t this).1 = getAll now this /\
  (forall q, getAll now (search t q this).1 = getAll now this).
Proof.
  intros this Ht. pose proof (run_inv w o cs) as Hinv. fold this in Hinv.
  pose proof (inv_nodup _ Hinv) as Hnd.
  assert (Hall : getAll now (getAll t this).1 = getAll now this).
  { pose proof (inv_nodup _ (store_inv_getAll t _ Hinv)) as Hnd'.
    rewrite (getAll_spec now (getAll t this).1) by done.
    rewrite (getAll_spec now this) by done.
    rewrite (getAll_spec t this) by done. simpl. by rewrite filter_live_twice. }
  split_and!.
  - intros k. pose proof (inv_nodup _ (store_inv_get t k _ Hinv)) as Hnd'.
    assert (Hst : (get t k this).1 = with_elements this (elements (get t k this).1)).
    { unfold get. destruct (map_get k (elements this)) as [ent|]; [|by destruct this].
      destruct (expiresAt ent <? t)%Z; [done | by destruct this]. }
    assert (Hf : filter (live now) (elements (get t k this).1)
                 = filter (live now) (elements this)).
    { destruct (get_elements t k this) as [Heq|[Heq Hdead]]; [by rewrite Heq|].
      rewrite Heq. apply filter_live_delete; [done|].
      intros v Hv Hl. apply (Hdead v Hv). by eapply live_mono. }
    rewrite (getAll_spec now (get t k this).1) by done.
    rewrite (getAll_spec now this) by done.
    rewrite Hf. f_equal. rewrite Hst. reflexivity.
  - exact Hall.
  - intros q. exact Hall.
Qed.

Lemma lazy_expiry_is_invisible_witness :
  let this := (run empty_world (config 50 10)
                 [CallAdd 0 (AObject (plain "a" 1)); CallAdd 5 (AObject (plain "b" 2))]).2 in
  (12 <= 13)%Z /\
  elements (get 12 (PString "a") this).1 <> elements this /\
  getAll 13 (get 12 (PString "a") this).1 = getAll 13 this.
Proof.
  intros this. split; [lia|]. split; [vm_compute; discriminate|].
  apply (lazy_expiry_is_invisible empty_world (config 50 10)
           [CallAdd 0 (AObject (plain "a" 1)); CallAdd 5 (AObject (plain "b" 2))] 12 13).
  lia.
Defined.

End store_reads.

Section store_accounting.
Import JsString Schema Storage Stats Sample.
Implicit Types (w : world) (this : ElementStorage) (m : jsmap) (k : prim).

Lemma foldl_min_spec (x : Z) (xs : list Z) :
  foldl Z.min x xs ∈ x :: xs /\ forall y, y ∈ x :: xs -> (foldl Z.min x xs <= y)%Z.
Proof.
  revert x. induction xs as [|z xs IH]; intros x; simpl.
  - split; [left|]. intros y Hy. apply list_elem_of_singleton in Hy. lia.
  - destruct (IH (Z.min x z)) as [Hin Hle]. split.
    + apply elem_of_cons in Hin as [Heq|Hin]; [|by do 2 right].
      rewrite Heq. destruct (Z.min_spec x z) as [[_ ->]|[_ ->]]; [left | right; left].
    + intros y Hy. apply elem_of_cons in Hy as [->|Hy].
      * specialize (Hle (Z.min x z) (list_elem_of_here _ _)). lia.
      * apply elem_of_cons in Hy as [->|Hy].
        -- specialize (Hle (Z.min x z) (list_elem_of_here _ _)). lia.
        -- apply Hle. by right.
Qed.

Lemma foldl_max_spec (x : Z) (xs : list Z) :
  foldl Z.max x xs ∈ x :: xs /\ forall y, y ∈ x :: xs -> (y <= foldl Z.max x xs)%Z.
Proof.
  revert x. induction xs as [|z xs IH]; intros x; simpl.
  - split; [left|]. intros y Hy. apply list_elem_of_singleton in Hy. lia.
  - destruct (IH (Z.max x z)) as [Hin Hle]. split.
    + apply elem_of_cons in Hin as [Heq|Hin]; [|by do 2 right].
      rewrite Heq. destruct (Z.max_spec x z) as [[_ ->]|[_ ->]]; [right; left | left].
    + intros y Hy. apply elem_of_cons in Hy as [->|Hy].
      * specialize (Hle (Z.max x z) (list_elem_of_here _ _)). lia.
      * apply elem_of_cons in Hy as [->|Hy].
        -- specialize (Hle (Z.max x z) (list_elem_of_here _ _)). lia.
        -- apply Hle. by right.
Qed.

(** The records [getAll] returns in a state of the store are stored
    records: each passes validation. *)
Lemma getAll_valid w o cs now d :
  d ∈ (getAll now (run w o cs).2).2 -> validateCapturedElement (AObject d) = true.
Proof.
  pose proof (run_inv w o cs) as [Hnd _ _ Hok].
  rewrite getAll_spec by done. simpl. rewrite sort_perm.
  intros ([k ent] & -> & Hin)%list_elem_of_fmap.
  apply list_elem_of_filter in Hin as [_ Hin].
  rewrite Forall_forall in Hok. by destruct (Hok _ Hin).
Qed.

(** [getStats] counts the records [getAll] returns, never more than the
    capacity; it answers [null] for both timestamps exactly when there
    is none, and otherwise the oldest and the newest timestamp are those
    of listed records and bound the timestamp of every listed record. *)
Theorem getStats_bounds w o cs now :
  let this := (run w o cs).2 in
  let st := (getStats now this).2 in
  let listed := (getAll now this).2 in
  (getStats now this).1 = (getAll now this).1 /\
  total st = length listed /\
  total st <= stats_maxElements st /\
  stats_maxElements st = maxElements this /\
  stats_ttl st = ttl this /\
  (listed = [] -> oldestTimestamp st = None /\ newestTimestamp st = None) /\
  (listed <> [] ->
     exists lo hi,
       oldestTimestamp st = Some lo /\ newestTimestamp st = Some hi /\
       (exists d, d ∈ listed /\ timestamp d = Some (PNumber lo)) /\
       (exists d, d ∈ listed /\ timestamp d = Some (PNumber hi)) /\
       (forall d, d ∈ listed ->
          exists n, timestamp d = Some (PNumber n) /\ (lo <= n <= hi)%Z)).
Proof.
  intros this st listed.
  assert (Hts : forall d, d ∈ listed -> timestamp d = Some (PNumber (timestamp_of d))).
  { intros d Hd. apply getAll_valid in Hd.
    apply validate_true in Hd as (_ & (n & Hn & _) & _).
    unfold timestamp_of. by rewrite Hn. }
  split_and!; try done.
  - pose proof (run_inv w o cs) as [Hnd Hsize _ _]. fold this in Hnd, Hsize.
    change (total st) with (length listed).
    change (stats_maxElements st) with (maxElements this).
    unfold listed. rewrite getAll_spec by done. simpl.
    rewrite sort_perm, length_fmap.
    etrans; [apply length_filter | done].
  - change (oldestTimestamp st) with (math_min (timestamp_of <$> listed)).
    change (newestTimestamp st) with (math_max (timestamp_of <$> listed)).
    by intros ->.
  - intros Hne.
    change (oldestTimestamp st) with (math_min (timestamp_of <$> listed)).
    change (newestTimestamp st) with (math_max (timestamp_of <$> listed)).
    destruct listed as [|d0 ds] eqn:Hl; [done|].
    rewrite fmap_cons. cbn [math_min math_max].
    destruct (foldl_min_spec (timestamp_of d0) (timestamp_of <$> ds)) as [Hmin Hlo].
    destruct (foldl_max_spec (timestamp_of d0) (timestamp_of <$> ds)) as [Hmax Hhi].
    rewrite <- fmap_cons in Hmin, Hmax, Hlo, Hhi.
    eexists _, _. split; [done|]. split; [done|]. split_and!.
    + apply list_elem_of_fmap in Hmin as (d & Hd & Hin). exists d.
      split; [done|]. rewrite Hd. by apply Hts.
    + apply list_elem_of_fmap in Hmax as (d & Hd & Hin). exists d.
      split; [done|]. rewrite Hd. by apply Hts.
    + intros d Hd. exists (timestamp_of d). split; [by apply Hts|]. split.
      * apply Hlo. by apply list_elem_of_fmap_2.
      * apply Hhi. by apply list_elem_of_fmap_2.
Qed.

(** The keys of the map after an admission, in order: when the map was
    full its first key is dropped first; then the id of the record is
    appended unless it is still there.  So an admission into a map that
    is not full adds one entry or, for an id already present, none; and
    an admission into a full map leaves the size as it is or, for an id
    present beyond the first key, gives a map with one entry less. *)
Theorem add_keys w o cs now element w' this' :
  let this := (run w o cs).2 in
  add now element (run w o cs).1 this = (w', this', Ok true) ->
  exists e,
    element = AObject e /\
    let ks := if decide (maxElements this <= length (elements this))
              then tail (keys (elements this)) else keys (elements this) in
    keys (elements this')
      = (if decide (prop (id e) ∈ ks) then ks else ks ++ [prop (id e)])%list /\
    length (elements this')
      = if decide (prop (id e) ∈ ks) then length ks else S (length ks).
Proof.
  intros this Hadd. pose proof (run_inv w o cs) as [Hnd _ Hcap _].
  fold this in Hnd, Hcap.
  apply add_Ok_true in Hadd as (e & h & s & -> & _ & Hs & -> & ->).
  apply sanitizeElement_inv in Hs as (_ & Hid & _).
  exists e. split; [done|]. simpl.
  assert (Hev : keys (evict this)
                = if decide (maxElements this <= length (elements this))
                  then tail (keys (elements this)) else keys (elements this)).
  { unfold evict. case_decide as Hfull; [|done].
    destruct (elements this) as [|[k v] m] eqn:Hm; [simpl in Hfull; lia|].
    by rewrite map_delete_first. }
  rewrite <- Hev, <- Hid. split; [apply keys_set|].
  rewrite length_set. unfold keys. by rewrite length_fmap.
Qed.

Lemma add_keys_witness :
  let cs := [CallAdd 0 (AObject (plain "a" 1)); CallAdd 1 (AObject (plain "b" 2));
             CallAdd 2 (AObject (plain "c" 3))] in
  let this := (run empty_world (config 3 1000) cs).2 in
  let r := add 3 (AObject (plain "b" 9)) (run empty_world (config 3 1000) cs).1 this in
  r = (r.1.1, r.1.2, Ok true) /\
  length (elements this) = 3 /\
  keys (elements r.1.2) = [PString "b"; PString "c"] /\
  length (elements r.1.2) = 2.
Proof.
  intros cs this r.
  assert (Hadd : r = (r.1.1, r.1.2, Ok true)) by (vm_compute; reflexivity).
  split; [exact Hadd|]. split; [vm_compute; reflexivity|].
  destruct (add_keys empty_world (config 3 1000) cs 3 (AObject (plain "b" 9))
              r.1.1 r.1.2 Hadd) as (e & He & Hk & Hl).
  injection He as <-. split; [exact Hk | exact Hl].
Defined.



End store_accounting.

(** * Further properties of the sanitizer *)

Section sanitizer_extras.
Import JsString Regex Schema Storage Sample.
Implicit Types (h : heap) (e s : CapturedElement) (o : object).

Lemma str_length_app (a b : string) :
  str_length (a ++ b) = (str_length a + str_length b)%Z.
Proof.
  unfold str_length. induction a as [|c a IH]; [reflexivity|].
  rewrite app_cons. cbn [String.length]. rewrite !Nat2Z.inj_succ, IH. lia.
Qed.


Lemma str_length_cap (max : Z) (x : string) :
  (0 <= max)%Z -> (str_length (cap max x) <= max + 15)%Z.
Proof.
  intros Hmax. unfold cap. destruct (max <? str_length x)%Z eqn:Hlt.
  - apply Z.ltb_lt in Hlt. rewrite str_length_app.
    destruct (substring0_spec max x) as [-> _]; [lia|].
    change (str_length TRUNCATED) with 15%Z. lia.
  - apply Z.ltb_ge in Hlt. lia.
Qed.

(** What [sanitizeElement] does to an [html] or a [screenshot] that is
    not a string: nothing, except that an array or object with a
    [length] above 1,000,000 is removed from [screenshot] like a
    string. *)
Lemma sanitizeElement_other_values h e h' s :
  sanitizeElement h e = (h', Ok s) ->
  (is_string (prop (html e)) = false -> html s = html e) /\
  (is_string (prop (screenshot e)) = false ->
     screenshot s = screenshot e \/ screenshot s = Some (PString "")).
Proof.
  intros (e1 & e2 & e3 & H1 & H2 & H3 & -> & _)%sanitizeElement_returns.
  destruct (scrub_step_inv _ _ H1) as (_ & _ & _ & _ & _ & _ & Hc1 & _ & _ & _ & Hh1).
  destruct (html_step_inv _ _ H2) as (_ & _ & _ & _ & _ & _ & Hc2 & _ & _ & _ & Hh2).
  destruct (text_step_inv _ _ H3) as (_ & _ & _ & _ & Hh3 & _ & Hc3 & _).
  destruct (screenshot_step_inv e3) as (_ & _ & _ & _ & Hh4 & _).
  split.
  - intros Hns. destruct (Hh1 Hns) as [He1 _].
    rewrite Hh4, Hh3, Hh2; [done | by rewrite He1].
  - intros Hns. unfold screenshot_step.
    assert (Hsc : screenshot e3 = screenshot e) by congruence.
    rewrite Hsc. destruct (prop (screenshot e)) as [| |b|n|x|[m|] sh] eqn:Hp;
      try done; simpl; rewrite ?andb_false_r; try (left; congruence).
    destruct (MAX_SCREENSHOT_SIZE <? m)%Z; simpl; [by right | left; congruence].
Qed.

(** Whatever the input, the strings that [sanitizeElement] returns are
    bounded: [html] by 50,015 units, [text] by 10,015 units and
    [screenshot] by 1,000,000 units. *)
Theorem sanitized_sizes_bounded h e h' s :
  sanitizeElement h e = (h', Ok s) ->
  (forall x, html s = Some (PString x) -> (str_length x <= 50015)%Z) /\
  (forall x, text s = Some (PString x) -> (str_length x <= 10015)%Z) /\
  (forall x, screenshot s = Some (PString x) -> (str_length x <= 1000000)%Z).
Proof.
  intros Hs.
  pose proof (sanitizeElement_inv _ _ _ _ Hs)
    as (_ & _ & _ & _ & _ & _ & _ & Hh & Ht & Ht' & Hc).
  pose proof (sanitizeElement_other_values _ _ _ _ Hs) as (Hh' & Hc').
  split_and!.
  - intros x Hx. destruct (is_string (prop (html e))) eqn:Hstr.
    + destruct (html e) as [[| | | |x0|]|] eqn:He; try done.
      rewrite (Hh x0 eq_refl) in Hx. injection Hx as <-.
      apply (str_length_cap MAX_HTML_SIZE). done.
    + rewrite Hh' in Hx by done. by rewrite Hx in Hstr.
  - intros x Hx. destruct (is_string (prop (text e))) eqn:Hstr.
    + destruct (text e) as [[| | | |x0|]|] eqn:He; try done.
      rewrite (Ht x0 eq_refl) in Hx. injection Hx as <-.
      apply (str_length_cap MAX_TEXT_SIZE). done.
    + rewrite Ht' in Hx by done. by rewrite Hx in Hstr.
  - intros x Hx. destruct (is_string (prop (screenshot e))) eqn:Hstr.
    + destruct (screenshot e) as [[| | | |x0|]|] eqn:He; try done.
      specialize (Hc x0 eq_refl).
      destruct (MAX_SCREENSHOT_SIZE <? str_length x0)%Z eqn:Hlt.
      * destruct Hc as [Hc _]. rewrite Hc in Hx. by injection Hx as <-.
      * destruct Hc as [Hc _]. rewrite Hc in Hx. injection Hx as <-.
        apply Z.ltb_ge in Hlt. exact Hlt.
    + destruct (Hc' eq_refl) as [Hc''|Hc'']; rewrite Hc'' in Hx.
      * by rewrite Hx in Hstr.
      * by injection Hx as <-.
Qed.

Lemma sanitized_sizes_bounded_witness :
  exists h' s,
    sanitizeElement ∅ oversized = (h', Ok s) /\
    (forall x, html s = Some (PString x) -> (str_length x <= 50015)%Z) /\
    (forall x, text s = Some (PString x) -> (str_length x <= 10015)%Z) /\
    (forall x, screenshot s = Some (PString x) -> (str_length x <= 1000000)%Z).
Proof.
  destruct (sanitizeElement_Ok ∅ oversized) as (s & Hs); [reflexivity..|].
  exists (redact_step ∅ oversized), s. split; [exact Hs|].
  exact (sanitized_sizes_bounded ∅ oversized _ s Hs).
Defined.

End sanitizer_extras.

Section scrub_extras.
Import JsString Regex Schema Storage Sample.
Implicit Types (h : heap) (e s : CapturedElement) (o : object).

Lemma remove_from_sublist (re : string -> option nat) (skip : nat) (x : string) :
  list_ascii_of_string (remove_from re skip x) `sublist_of` list_ascii_of_string x.
Proof.
  revert skip. induction x as [|c x IH]; intros skip; [done|].
  simpl. destruct skip as [|k].
  - destruct (re (String c x)) as [n|].
    + apply sublist_cons, IH.
    + simpl. apply sublist_skip, IH.
  - apply sublist_cons, IH.
Qed.

Lemma list_ascii_length (x : string) :
  str_length x = Z.of_nat (length (list_ascii_of_string x)).
Proof. unfold str_length. f_equal. induction x; simpl; congruence. Qed.

(** Where the pattern matches at no position of [x], the replacement
    leaves [x] as it is. *)
Lemma remove_all_nowhere (re : string -> option nat) (x : string) :
  (forall n, re (drop n x) = None) -> remove_all re x = x.
Proof.
  unfold remove_all. induction x as [|c x IH]; intros Hre; [done|].
  simpl. rewrite (Hre 0%nat : re (String c x) = None). f_equal.
  apply IH. intros n. exact (Hre (S n)).
Qed.

(** Scrubbing only deletes: the scrubbed body is the input with some of
    its units left out, in the same order, so it is never longer than
    the input. *)
Theorem scrub_only_deletes (x : string) :
  list_ascii_of_string (scrub x) `sublist_of` list_ascii_of_string x /\
  (str_length (scrub x) <= str_length x)%Z.
Proof.
  assert (Hsub : list_ascii_of_string (scrub x) `sublist_of` list_ascii_of_string x).
  { unfold scrub, remove_all. etrans; apply remove_from_sublist. }
  split; [exact Hsub|]. rewrite !list_ascii_length.
  apply sublist_length in Hsub. lia.
Qed.

(** A body in which neither the script pattern nor the event-handler
    pattern matches at any position is stored unscrubbed. *)
Theorem scrub_nothing_to_remove (x : string) :
  (forall n, match_script (drop n x) = None) ->
  (forall n, match_handler (drop n x) = None) ->
  scrub x = x.
Proof.
  intros Hs Hh. unfold scrub. rewrite (remove_all_nowhere match_script) by done.
  by apply remove_all_nowhere.
Qed.

Lemma scrub_nothing_to_remove_witness : scrub "<p on>hi</p>" = "<p on>hi</p>".
Proof.
  apply scrub_nothing_to_remove;
    intros n; do 13 (destruct n as [|n]; [vm_compute; reflexivity|]);
    vm_compute; reflexivity.
Defined.

(** Redacting twice is redacting once, and redaction neither adds nor
    removes a key. *)
Theorem redact_idempotent o :
  redact (redact o) = redact o /\ dom (redact o) = dom o.
Proof.
  split.
  - apply map_eq. intros k. rewrite !redact_lookup.
    destruct (o !! k) as [v|]; simpl; [|done]. unfold REDACTED.
    by destruct (sensitive k).
  - apply set_eq. intros k. rewrite !elem_of_dom, redact_lookup.
    destruct (o !! k); simpl; split; intros [? ?]; eauto; done.
Qed.

(** [sanitizeElement] keeps the identity of the record and touches no
    object but the attribute object: [id], [timestamp], [url],
    [selector] and the reference in [attributes] are those of the input,
    a record that passes validation still passes it, and every other
    object of the heap is as it was. *)
Theorem sanitizeElement_frame h e h' s :
  sanitizeElement h e = (h', Ok s) ->
  id s = id e /\ timestamp s = timestamp e /\ url s = url e /\
  selector s = selector e /\ attributes s = attributes e /\ rest s = rest e /\
  (validateCapturedElement (AObject e) = true ->
     validateCapturedElement (AObject s) = true) /\
  (forall l, attributes e <> Some (VRef l) -> h' !! l = h !! l) /\
  dom h' = dom h.
Proof.
  intros Hs.
  pose proof (sanitizeElement_inv _ _ _ _ Hs) as (-> & Hi & Ht & Hu & Hsel & Ha & Hr & _).
  split_and!; try done.
  - by apply (sanitizeElement_valid _ _ _ _ Hs).
  - intros l Hl. unfold redact_step.
    destruct (attributes e) as [[p|l']|]; try done.
    destruct (h !! l') eqn:Hl'; [|done].
    rewrite lookup_insert_ne; [done|]. intros ->. by apply Hl.
  - unfold redact_step. destruct (attributes e) as [[p|l']|]; try done.
    destruct (h !! l') eqn:Hl'; [|done].
    apply set_eq. intros l. rewrite dom_insert_L, elem_of_union, elem_of_singleton.
    split; [|tauto]. intros [->|?]; [|done]. apply elem_of_dom. eauto.
Qed.

Lemma sanitizeElement_frame_witness :
  let h : heap := <[1 := caller_attributes]> caller_heap in
  exists h' s,
    sanitizeElement h with_token = (h', Ok s) /\
    id s = Some (PString "t") /\
    h' !! 1 = Some caller_attributes /\
    h' !! 0 <> Some caller_attributes.
Proof.
  intros h. exists (redact_step h with_token), with_token.
  assert (Hs : sanitizeElement h with_token = (redact_step h with_token, Ok with_token))
    by (vm_compute; reflexivity).
  split; [exact Hs|].
  destruct (sanitizeElement_frame _ _ _ _ Hs) as (Hi & _ & _ & _ & _ & _ & _ & Hf & _).
  split; [exact Hi|]. split.
  - etrans; [apply (Hf 1%nat); discriminate|]. vm_compute. reflexivity.
  - intros Heq. apply (f_equal (fun r : option object => r ≫= fun m : object => m !! "data-token")) in Heq.
    vm_compute in Heq. discriminate Heq.
Defined.

End scrub_extras.

(** * Further properties of searching and summarizing *)

Section search_extras.
Import JsString Regex Schema Storage Summary Sample.
Implicit Types (w : world) (this : ElementStorage) (d : CapturedElement).

Lemma includes_empty (x : string) : includes x "" = true.
Proof. apply includes_spec. by exists "", x. Qed.

Lemma matches_Ok q d (b : bool) :
  matches (toLowerCase q) d = Ok b -> b = record_contains q d.
Proof.
  unfold matches, record_contains, lower_includes.
  destruct (prop (selector d)) as [| | | |x1|]; try done. simpl.
  destruct (includes (toLowerCase x1) (toLowerCase q)); simpl; [by intros [= <-]|].
  destruct (prop (text d)) as [| | | |x2|]; try done. simpl.
  destruct (includes (toLowerCase x2) (toLowerCase q)); simpl; [by intros [= <-]|].
  destruct (prop (html d)) as [| | | |x3|]; try done. simpl.
  destruct (includes (toLowerCase x3) (toLowerCase q)); simpl; [by intros [= <-]|].
  destruct (prop (url d)) as [| | | |x4|]; try done. simpl. by intros [= <-].
Qed.

Lemma filter_result_exact {A} (f : A -> result bool) (p : A -> bool) (l r : list A) :
  (forall x b, f x = Ok b -> b = p x) ->
  filter_result f l = Ok r -> r = List.filter p l.
Proof.
  intros Hf. revert r. induction l as [|x l IH]; simpl; intros r; [by intros [= <-]|].
  destruct (f x) as [b|] eqn:Hx; simpl; [|done].
  destruct (filter_result f l) as [r'|]; simpl; [|done].
  intros [= <-]. rewrite <- (Hf x b Hx), (IH r' eq_refl). done.
Qed.

(** Whenever [search] returns, it returns exactly the records of
    [getAll] one of whose [selector], [text], [html], [url] is a string
    containing the query, ignoring case, in the order of [getAll]; a
    field that is not a string counts as not containing it. *)
Theorem search_returns_exactly now q this ds :
  (search now q this).2 = Ok ds ->
  ds = List.filter (record_contains q) (getAll now this).2.
Proof.
  change (search now q this).2
    with (filter_result (matches (toLowerCase q)) (getAll now this).2).
  apply filter_result_exact. apply matches_Ok.
Qed.

Lemma search_returns_exactly_witness :
  let this := (run empty_world (config 50 1000)
                 [CallAdd 0 (AObject numeric_text); CallAdd 1 (AObject (plain "a" 5))]).2 in
  (search 2 "DIV" this).2 = Ok [plain "a" 5; numeric_text] /\
  [plain "a" 5; numeric_text] = List.filter (record_contains "DIV") (getAll 2 this).2.
Proof.
  intros this.
  assert (Hs : (search 2 "DIV" this).2 = Ok [plain "a" 5; numeric_text])
    by (vm_compute; reflexivity).
  split; [exact Hs|]. exact (search_returns_exactly 2 "DIV" this _ Hs).
Defined.

(** A search for the empty string never throws and returns every record
    of [getAll], in every state of the store. *)
Theorem search_empty_query w o cs now :
  let this := (run w o cs).2 in
  search now "" this = ((getAll now this).1, Ok (getAll now this).2).
Proof.
  intros this. unfold search. f_equal.
  rewrite (filter_result_Ok _ (fun _ => true)).
  - f_equal. induction (getAll now this).2 as [|d l IH]; simpl; congruence.
  - intros d Hd. apply getAll_valid in Hd.
    apply validate_true in Hd as (_ & _ & _ & (x & Hx & _) & _).
    unfold matches. rewrite Hx. simpl. by rewrite includes_empty.
Qed.

Lemma take_all (n : nat) (x : string) :
  (String.length x <= n)%nat -> take n x = x.
Proof.
  revert n. induction x as [|c x IH]; intros [|n] Hn; simpl in *; try done; try lia.
  f_equal. apply IH. lia.
Qed.

Lemma app_empty_r (x : string) : x = x ++ "".
Proof. induction x as [|c x IH]; [done|]. rewrite app_cons. by f_equal. Qed.

(** The first [n] units of a string. *)
Lemma substring0_prefix (n : Z) (x : string) :
  (0 <= n)%Z ->
  (str_length (substring0 n x) <= n)%Z /\
  (exists r, x = substring0 n x ++ r) /\
  ((str_length x <= n)%Z -> substring0 n x = x).
Proof.
  intros Hn. destruct (decide (n < str_length x)%Z) as [Hlt|Hge].
  - destruct (substring0_spec n x) as [Hl Hr]; [lia|]. split; [lia|]. split; [done|]. lia.
  - assert (Hid : substring0 n x = x).
    { unfold substring0, str_length in *. apply take_all. lia. }
    rewrite Hid. split; [lia|]. split; [|done]. exists "". apply app_empty_r.
Qed.

Lemma text_excerpt_spec (p : prim) :
  (text_excerpt p = Throw TypeError <->
     p <> PUndefined /\ p <> PNull /\ is_string p = false) /\
  (forall r, text_excerpt p = Ok r ->
     exists t, r = PString t /\ (str_length t <= 100)%Z /\
       (forall x, p = PString x ->
          (exists r, x = t ++ r) /\ ((str_length x <= 100)%Z -> t = x)) /\
       (is_string p = false -> t = "")).
Proof.
  destruct p as [| |b|n|x|len sh]; simpl.
  - split; [split; [done | by intros (? & _)]|].
    intros r [= <-]. exists "". by split_and!.
  - split; [split; [done | by intros (_ & ? & _)]|].
    intros r [= <-]. exists "". by split_and!.
  - by split.
  - by split.
  - split; [split; [done | by intros (_ & _ & ?)]|].
    destruct (substring0_prefix 100 x) as (Hl & Hr & Hid); [lia|].
    intros r Hr'. exists (substring0 100 x). split_and!; try done.
    + case_bool_decide as He; simpl in Hr'; [|congruence].
      rewrite He. congruence.
    + by intros ? [= <-].
  - by split.
Qed.

(** [summarizeElement] throws exactly when [text] is there and is
    neither [undefined], [null] nor a string: a number, a boolean, an
    array or an object.  Otherwise the summary carries the [id],
    [timestamp], [url] and [selector] of the record, a [text] that is
    the record's text cut to its first 100 units (the empty string when
    the record has no text or [null]), and [hasScreenshot] tells whether
    [screenshot] is truthy. *)
Theorem summarizeElement_excerpt d :
  (summarizeElement d = Throw TypeError <->
     prop (text d) <> PUndefined /\ prop (text d) <> PNull /\
     is_string (prop (text d)) = false) /\
  (forall b, summarizeElement (set_text d (PBool b)) = Throw TypeError) /\
  (forall n, summarizeElement (set_text d (PNumber n)) = Throw TypeError) /\
  (forall len sh, summarizeElement (set_text d (PObject len sh)) = Throw TypeError) /\
  (forall sm, summarizeElement d = Ok sm ->
     sum_id sm = prop (id d) /\ sum_timestamp sm = prop (timestamp d) /\
     sum_url sm = prop (url d) /\ sum_selector sm = prop (selector d) /\
     hasScreenshot sm = truthy (prop (screenshot d)) /\
     exists t, sum_text sm = PString t /\ (str_length t <= 100)%Z /\
       (forall x, text d = Some (PString x) ->
          (exists r, x = t ++ r) /\ ((str_length x <= 100)%Z -> t = x)) /\
       (is_string (prop (text d)) = false -> t = "")).
Proof.
  destruct (text_excerpt_spec (prop (text d))) as [Hthrow Hok].
  split; [|split; [done|split; [done|split; [done|]]]].
  - unfold summarizeElement.
    destruct (text_excerpt (prop (text d))) as [r|[]] eqn:Hr; simpl.
    + split; [done|]. intros H. apply Hthrow in H. done.
    + split; [|done]. intros _. by apply Hthrow.
  - unfold summarizeElement.
    destruct (text_excerpt (prop (text d))) as [r|[]] eqn:Hr; simpl; [|done].
    intros sm [= <-]. simpl. split_and!; try done.
    destruct (Hok r eq_refl) as (t & -> & Hl & Hx & He). exists t.
    split_and!; try done. intros x Hxd. apply Hx. by rewrite Hxd.
Qed.

End search_extras.

(** * Properties of the resource and tool handlers *)

Section uri_facts.
Import JsString Regex Schema Storage Summary Stats McpServer.

Lemma span_take (P : ascii -> bool) (r : string) :
  all_units P (take (span P r) r) = true.
Proof.
  induction r as [|c r IH]; [done|]. simpl. destruct (P c) eqn:Hc; [|done].
  simpl. by rewrite Hc.
Qed.

Lemma span_drop (P : ascii -> bool) (r : string) c s :
  drop (span P r) r = String c s -> P c = false.
Proof.
  induction r as [|c' r IH]; [done|]. simpl. destruct (P c') eqn:Hc; [done|].
  simpl. by intros [= <- _].
Qed.

Lemma span_app (P : ascii -> bool) (i r : string) :
  all_units P i = true ->
  match r with EmptyString => True | String c _ => P c = false end ->
  span P (i ++ r) = String.length i.
Proof.
  intros Hi Hr. induction i as [|c i IH].
  - rewrite (eq_refl : "" ++ r = r). destruct r as [|c r]; [done|]. simpl. by rewrite Hr.
  - rewrite app_cons. simpl in *. apply andb_true_iff in Hi as [-> Hi]. f_equal. auto.
Qed.

Lemma take_app_length (i r : string) : take (String.length i) (i ++ r) = i.
Proof.
  induction i as [|c i IH].
  - rewrite (eq_refl : "" ++ r = r). by destruct r.
  - rewrite app_cons. simpl. by rewrite IH.
Qed.

Lemma drop_app_length (i r : string) : drop (String.length i) (i ++ r) = r.
Proof.
  induction i as [|c i IH].
  - rewrite (eq_refl : "" ++ r = r). by destruct r.
  - rewrite app_cons. simpl. by rewrite IH.
Qed.

Lemma span_zero_length (P : ascii -> bool) (r : string) :
  span P r = String.length (take (span P r) r).
Proof.
  induction r as [|c r IH]; [done|]. simpl. destruct (P c); [|done]. simpl. by f_equal.
Qed.

Lemma parse_uri_sound (uri i : string) (sub : option string) :
  parse_uri uri = Some (i, sub) -> uri_shape uri i sub.
Proof.
  unfold parse_uri, uri_shape. fold not_slash.
  - destruct (String.prefix "element://" uri) eqn:Hp; [|done].
    apply prefix_app in Hp as [r ->].
    change (drop 10 ("element://" ++ r)) with r.
    pose proof (span_take not_slash r) as Hall.
    pose proof (take_drop (span not_slash r) r) as Hr.
    pose proof (span_zero_length not_slash r) as Hlen.
    pose proof (span_drop not_slash r) as Hdrop.
    remember (span not_slash r) as m eqn:Hm. clear Hm.
    destruct m as [|n]; [done|].
    remember (take (S n) r) as i0 eqn:Hi0. clear Hi0.
    assert (Hne : i0 <> "") by (by intros ->).
    destruct (drop (S n) r) as [|c s] eqn:Hd.
    + intros [= <- <-]. split; [done|]. split; [done|].
      rewrite <- app_empty_r in Hr. by rewrite Hr.
    + assert (Hc : c = "/"%char).
      { specialize (Hdrop c s eq_refl). unfold not_slash in Hdrop.
        apply negb_false_iff, bool_decide_eq_true in Hdrop. done. }
      subst c. destruct s as [|c' s']; [done|].
      destruct (all_units is_dot (String c' s')) eqn:Hdot; [|done].
      intros [= <- <-]. split; [done|]. split; [done|].
      split; [done|]. split; [done|]. by rewrite Hr.
Qed.

Lemma parse_uri_build (uri i : string) (sub : option string) :
  uri_shape uri i sub -> parse_uri uri = Some (i, sub).
Proof.
  unfold parse_uri, uri_shape. fold not_slash.
  - intros (Hne & Hall & Hsub). destruct sub as [s|].
    + destruct Hsub as (Hs & Hdot & ->).
      change (String.prefix "element://" ("element://" ++ i ++ "/" ++ s)) with
        (String.prefix "" (i ++ "/" ++ s)).
      assert (String.prefix "" (i ++ "/" ++ s) = true) as ->
        by (by destruct (i ++ "/" ++ s)).
      change (drop 10 ("element://" ++ i ++ "/" ++ s)) with (i ++ "/" ++ s).
      rewrite (span_app not_slash i ("/" ++ s) Hall) by done.
      rewrite take_app_length, drop_app_length.
      destruct i as [|c i]; [done|]. simpl String.length. cbv iota.
      change ("/" ++ s) with (String "/" s).
      destruct s as [|c' s']; [done|]. by rewrite Hdot.
    + subst uri.
      change (String.prefix "element://" ("element://" ++ i)) with (String.prefix "" i).
      assert (String.prefix "" i = true) as -> by (by destruct i).
      change (drop 10 ("element://" ++ i)) with i.
      pose proof (span_app not_slash i "" Hall I) as Hsp.
      rewrite <- app_empty_r in Hsp. rewrite Hsp.
      pose proof (take_app_length i "") as Ht. pose proof (drop_app_length i "") as Hd.
      rewrite <- app_empty_r in Ht, Hd. rewrite Ht, Hd.
      by destruct i.
Qed.

(** The URIs that [ReadResource] takes apart, and how: the pattern
    matches exactly the strings made of [element://], a non-empty id
    without a slash and, optionally, a slash and a non-empty
    sub-resource without a line terminator; the two groups are that id
    and that sub-resource. *)
Theorem parse_uri_spec (uri i : string) (sub : option string) :
  parse_uri uri = Some (i, sub) <->
  i <> "" /\ all_units not_slash i = true /\
  match sub with
  | None => uri = "element://" ++ i
  | Some s => s <> "" /\ all_units is_dot s = true /\ uri = "element://" ++ i ++ "/" ++ s
  end.
Proof. split; [apply parse_uri_sound | apply parse_uri_build]. Qed.

End uri_facts.

Section resource_facts.
Import JsString Regex Schema Storage Summary Stats McpServer Sample.
Implicit Types (w : world) (this : ElementStorage) (d : CapturedElement).







End resource_facts.

Section resource_witnesses.
Import JsString Regex Schema Storage Summary Stats McpServer Sample HandlerSample.


End resource_witnesses.

Section tool_facts.
Import JsString Regex Schema Storage Summary Stats McpServer Sample HandlerSample.
Implicit Types (w : world) (this : ElementStorage) (d : CapturedElement).









End tool_facts.

(** * Properties of the WebSocket server *)

Section ws_helpers.
Import JsString Schema Storage Stats WebSocketServer.
Implicit Types (n : net) (ws c : sock) (s : state) (l : list (sock * outmsg)).

Lemma sent_to_app ws l1 l2 : sent_to ws (l1 ++ l2) = (sent_to ws l1 ++ sent_to ws l2)%list.
Proof. unfold sent_to. by rewrite filter_app, fmap_app. Qed.

Lemma sent_to_nil ws : sent_to ws [] = [].
Proof. done. Qed.

Lemma sent_to_one ws c (m : outmsg) :
  sent_to ws [(c, m)] = if decide (c = ws) then [m] else [].
Proof. unfold sent_to. rewrite filter_cons. simpl. by case_decide. Qed.

(** What one message sent to each connection of a list without
    duplicates amounts to for a given connection. *)
Lemma sent_to_each ws (m : outmsg) (cs : list sock) :
  NoDup cs ->
  sent_to ws ((fun c => (c, m)) <$> cs) = if decide (ws ∈ cs) then [m] else [].
Proof.
  induction cs as [|c cs IH]; intros Hnd.
  - rewrite decide_False; [done | apply not_elem_of_nil].
  - apply NoDup_cons in Hnd as [Hc Hnd]. rewrite fmap_cons.
    change ((c, m) :: ((fun c => (c, m)) <$> cs))
      with ([(c, m)] ++ ((fun c => (c, m)) <$> cs))%list.
    rewrite sent_to_app, sent_to_one, IH by done.
    destruct (decide (c = ws)) as [->|Hne].
    + rewrite decide_False by done. rewrite decide_True by left. done.
    + destruct (decide (ws ∈ cs)) as [Hin|Hnin].
      * rewrite decide_True by (by right). done.
      * rewrite decide_False; [done|]. rewrite not_elem_of_cons. split; [congruence|done].
Qed.

Lemma sendMessage_spec ws (m : outmsg) n :
  sendMessage ws m n
  = {| readyState := readyState n;
       outbox := (outbox n ++ if is_open n ws then [(ws, m)] else [])%list |}.
Proof.
  unfold sendMessage, send. destruct (is_open n ws); [done|].
  rewrite app_nil_r. by destruct n.
Qed.

(** The loop of [broadcast]. *)
Lemma broadcast_spec (m : outmsg) (exclude : option sock) (srv : server) n :
  broadcast m exclude srv n
  = {| readyState := readyState n;
       outbox := (outbox n ++ ((fun c => (c, m)) <$> open_others n exclude (clients srv)))%list |}.
Proof.
  unfold broadcast, open_others. generalize (clients srv). intros cs.
  revert n. induction cs as [|c cs IH]; intros n.
  - simpl. rewrite app_nil_r. by destruct n.
  - cbn [foldl]. rewrite filter_cons.
    assert (Hcond : bool_decide (Some c <> exclude) && is_open n c
                    = bool_decide (Some c <> exclude /\ readyState n !! c = Some OPEN)).
    { unfold is_open. apply eq_true_iff_eq.
      rewrite andb_true_iff, !bool_decide_eq_true. tauto. }
    rewrite Hcond.
    destruct (decide (Some c <> exclude /\ readyState n !! c = Some OPEN)) as [Hy|Hn].
    + rewrite bool_decide_eq_true_2 by done.
      rewrite IH. unfold send. cbn [readyState outbox].
      by rewrite fmap_cons, <- app_assoc.
    + rewrite bool_decide_eq_false_2 by done. apply IH.
Qed.

Lemma open_others_NoDup n exclude (cs : list sock) :
  NoDup cs -> NoDup (open_others n exclude cs).
Proof. apply NoDup_filter. Qed.

Lemma set_add_NoDup ws (cs : list sock) : NoDup cs -> NoDup (set_add ws cs).
Proof.
  intros Hnd. unfold set_add. case_decide as Hin; [done|].
  apply NoDup_app. split_and!; [done | | apply NoDup_singleton].
  intros x Hx Hx'. apply list_elem_of_singleton in Hx' as ->. done.
Qed.

End ws_helpers.

Section add_outcomes.
Import JsString Schema Storage.

(** When [add] does not answer [true], either the record fails
    validation, the answer is [false] and nothing has changed, or it
    passes validation and [add] throws, leaving the store as it was and
    the shared objects as [sanitizeElement] left them. *)
Lemma add_throws_or_rejects now element (w : world) (this : ElementStorage) :
  (add now element w this).2 <> Ok true ->
  (add now element w this = (w, this, Ok false) /\
   validateCapturedElement element = false) \/
  (exists e, element = AObject e /\ validateCapturedElement element = true /\
     add now element w this
     = ({| objects := if html_throws e then objects w else redact_step (objects w) e;
           timers := timers w |}, this, Throw TypeError)).
Proof.
  unfold add. destruct (validateCapturedElement element) eqn:Hv; simpl; [|by left].
  destruct element as [p|e]; [done|].
  destruct (sanitizeElement_cases (objects w) e)
    as [(Hh & ->)|[(Hh & Ht & ->)|(Hh & Ht & s & ->)]]; simpl; [| |done];
    intros _; right; exists e; by rewrite Hh.
Qed.

End add_outcomes.

Section ws_delivery.
Import JsString Schema Storage Stats WebSocketServer Sample HandlerSample.
Implicit Types (n : net) (ws c : sock) (s : state).

Lemma serving_clients_NoDup : NoDup (clients (this serving)).
Proof.
  change (NoDup [1; 2; 3]).
  repeat (apply NoDup_cons; split;
          [intros Hin; repeat (apply elem_of_cons in Hin as [Hin|Hin]; [discriminate|]);
           by apply elem_of_nil in Hin|]).
  apply NoDup_nil_2.
Qed.

(** [broadcast] reaches every client that is open and is not the
    excluded one exactly once, and nobody else: nothing goes to the
    excluded connection, to a client that is not open, or to a
    connection that is not a client.  It changes the state of no
    connection. *)
Theorem broadcast_delivery (m : outmsg) (exclude : option sock) (srv : server) n :
  NoDup (clients srv) ->
  let n' := broadcast m exclude srv n in
  readyState n' = readyState n /\
  exists new,
    outbox n' = (outbox n ++ new)%list /\
    forall c,
      sent_to c new
      = if decide (c ∈ clients srv /\ Some c <> exclude /\ readyState n !! c = Some OPEN)
        then [m] else [].
Proof.
  intros Hnd n'. unfold n'. rewrite broadcast_spec. cbn [readyState outbox].
  split; [done|]. eexists. split; [done|]. intros c.
  rewrite sent_to_each by (by apply open_others_NoDup).
  unfold open_others. apply decide_ext. rewrite list_elem_of_filter. tauto.
Qed.

Lemma broadcast_delivery_witness :
  NoDup (clients (this serving)) /\
  let n' := broadcast ALL_CLEARED (Some 1) (this serving) three_sockets in
  outbox n' = [(3, ALL_CLEARED)] /\
  exists new, outbox n' = (outbox three_sockets ++ new)%list /\ sent_to 1 new = [].
Proof.
  pose proof serving_clients_NoDup as Hnd.
  split; [exact Hnd|]. intros n'. split; [vm_compute; reflexivity|].
  destruct (broadcast_delivery ALL_CLEARED (Some 1) (this serving) three_sockets Hnd)
    as (_ & new & Hout & Hsent).
  exists new. split; [exact Hout|]. rewrite Hsent. apply decide_False.
  intros (_ & Hne & _). by apply Hne.
Defined.

(** A capture that is admitted is acknowledged to its sender and
    announced to the others: the store and the shared objects are those
    [add] leaves, the sender, if open, receives [ELEMENT_STORED] and
    nothing else, every other open client receives [ELEMENT_ADDED]
    once, and no one else receives anything. *)
Theorem capture_is_acknowledged_and_announced now ws e (i : prim) s w' store' :
  add now (AObject e) (st_world s) (storage s) = (w', store', Ok true) ->
  NoDup (clients (this s)) ->
  let s' := handleMessage now ws (Parsed (PString "ELEMENT_CAPTURED") (AObject e) i) s in
  st_world s' = w' /\ storage s' = store' /\ this s' = this s /\
  readyState (network s') = readyState (network s) /\
  exists new,
    outbox (network s') = (outbox (network s) ++ new)%list /\
    sent_to ws new
      = (if is_open (network s) ws
         then [ELEMENT_STORED (prop (id e)) (prop (selector e)) (prop (timestamp e))]
         else []) /\
    forall c, c <> ws ->
      sent_to c new
      = if decide (c ∈ clients (this s) /\ readyState (network s) !! c = Some OPEN)
        then [ELEMENT_ADDED (prop (id e)) (prop (selector e)) (prop (url e))] else [].
Proof.
  intros Hadd Hnd s'. unfold s', handleMessage. rewrite decide_True by done.
  unfold handleElementCaptured. rewrite Hadd. cbn [fst snd].
  cbn [with_network st_world storage this network].
  rewrite broadcast_spec, sendMessage_spec. cbn [readyState outbox].
  split_and!; try done. eexists. split; [by rewrite <- app_assoc|]. split.
  - rewrite sent_to_app, sent_to_each by (by apply open_others_NoDup).
    rewrite decide_False.
    2:{ unfold open_others. rewrite list_elem_of_filter. intros [[Hne _] _]. by apply Hne. }
    rewrite app_nil_r. destruct (is_open (network s) ws); [|done].
    by rewrite sent_to_one, decide_True.
  - intros c Hc. rewrite sent_to_app, sent_to_each by (by apply open_others_NoDup).
    assert (sent_to c (if is_open (network s) ws
                       then [(ws, ELEMENT_STORED (prop (id e)) (prop (selector e))
                                    (prop (timestamp e)))]
                       else []) = []) as ->.
    { destruct (is_open (network s) ws); [|done].
      rewrite sent_to_one. by rewrite decide_False. }
    simpl. apply decide_ext. unfold open_others. rewrite list_elem_of_filter.
    split; [tauto|]. intros [Hin Ho]. split; [|done]. split; [congruence|done].
Qed.

Lemma capture_is_acknowledged_and_announced_witness :
  let s' := handleMessage 0 1 (Parsed (PString "ELEMENT_CAPTURED") (AObject (plain "a" 1))
                                 PUndefined) serving in
  (exists w' store', add 0 (AObject (plain "a" 1)) (st_world serving) (storage serving)
                     = (w', store', Ok true)) /\
  NoDup (clients (this serving)) /\
  exists new,
    outbox (network s') = (outbox (network serving) ++ new)%list /\
    sent_to 1 new = [ELEMENT_STORED (PString "a") (PString "div.item") (PNumber 1)] /\
    sent_to 2 new = [] /\
    sent_to 3 new = [ELEMENT_ADDED (PString "a") (PString "div.item")
                       (PString "http://a.test/")].
Proof.
  intros s'.
  assert (Hadd : exists w' store',
             add 0 (AObject (plain "a" 1)) (st_world serving) (storage serving)
             = (w', store', Ok true)) by (vm_compute; eexists _, _; reflexivity).
  pose proof serving_clients_NoDup as Hnd.
  split; [exact Hadd|]. split; [exact Hnd|]. destruct Hadd as (w' & store' & Hadd).
  destruct (capture_is_acknowledged_and_announced 0 1 (plain "a" 1) PUndefined serving
              w' store' Hadd Hnd) as (_ & _ & _ & _ & new & Hout & Hme & Hothers).
  exists new. split; [exact Hout|]. split; [exact Hme|]. split.
  - rewrite (Hothers 2%nat) by discriminate. apply decide_False.
    intros [_ Ho]. vm_compute in Ho. discriminate Ho.
  - rewrite (Hothers 3%nat) by discriminate. apply decide_True.
    split; [do 2 right; left | vm_compute; reflexivity].
Defined.

End ws_delivery.

Section ws_protocol.
Import JsString Schema Storage Stats WebSocketServer Sample HandlerSample.
Implicit Types (n : net) (ws c : sock) (s : state).

Lemma sent_to_each_notin ws (m : outmsg) (cs : list sock) :
  ws ∉ cs -> sent_to ws ((fun c => (c, m)) <$> cs) = [].
Proof.
  induction cs as [|c cs IH]; [done|]. rewrite not_elem_of_cons. intros [Hne Hnin].
  rewrite fmap_cons.
  change ((c, m) :: ((fun c => (c, m)) <$> cs))
    with ([(c, m)] ++ ((fun c => (c, m)) <$> cs))%list.
  rewrite sent_to_app, sent_to_one, IH by done. by rewrite decide_False by congruence.
Qed.

Lemma sent_to_each_elem ws (m x : outmsg) (cs : list sock) :
  x ∈ sent_to ws ((fun c => (c, m)) <$> cs) -> x = m.
Proof.
  unfold sent_to. intros ([c' m'] & -> & Hin)%list_elem_of_fmap.
  apply list_elem_of_filter in Hin as [_ Hin].
  apply list_elem_of_fmap in Hin as (c'' & [= _ ->] & _). done.
Qed.

(** What a single reply on [ws] amounts to. *)
Lemma one_reply_of_reply ws (m : outmsg) s0 s :
  this s0 = this s -> network s0 = network s ->
  let s' := with_network s0 (sendMessage ws m (network s0)) in
  this s' = this s /\
  readyState (network s') = readyState (network s) /\
  exists new,
    outbox (network s') = (outbox (network s) ++ new)%list /\
    length (sent_to ws new) = (if is_open (network s) ws then 1 else 0) /\
    forall c x, c <> ws -> x ∈ sent_to c new -> exists a b d, x = ELEMENT_ADDED a b d.
Proof.
  intros Hthis Hnet s'. unfold s'. rewrite Hnet, sendMessage_spec.
  cbn [with_network this network readyState outbox].
  split; [done|]. split; [done|]. eexists. split; [done|].
  destruct (is_open (network s) ws).
  - split; [by rewrite sent_to_one, decide_True|].
    intros c x Hc. rewrite sent_to_one, decide_False by congruence. by intros ?%elem_of_nil.
  - split; [done|]. intros c x _. by intros ?%elem_of_nil.
Qed.

(** Every message gets one reply: whatever arrives on a connection,
    parsable or not, of a known type or not, [handleMessage] sends
    exactly one message on that connection when it is open and none when
    it is not; the only thing it ever sends on another connection is
    [ELEMENT_ADDED]; and it changes neither the set of clients nor the
    state of a connection. *)
Theorem one_reply_per_message now ws data s :
  let s' := handleMessage now ws data s in
  this s' = this s /\
  readyState (network s') = readyState (network s) /\
  exists new,
    outbox (network s') = (outbox (network s) ++ new)%list /\
    length (sent_to ws new) = (if is_open (network s) ws then 1 else 0) /\
    forall c x, c <> ws -> x ∈ sent_to c new -> exists a b d, x = ELEMENT_ADDED a b d.
Proof.
  intros s'. unfold s', handleMessage.
  destruct data as [| |type element i];
    [by apply one_reply_of_reply | by apply one_reply_of_reply |].
  destruct (decide (type = PString "ELEMENT_CAPTURED")) as [_|_].
  2:{ repeat case_decide; by apply one_reply_of_reply. }
  unfold handleElementCaptured.
  destruct (add now element (st_world s) (storage s)) as [[w' store'] [[]|e]];
    cbn [fst snd].
  - cbn [with_network st_world storage this network].
    rewrite broadcast_spec, sendMessage_spec. cbn [readyState outbox].
    split; [done|]. split; [done|]. eexists. split; [by rewrite <- app_assoc|].
    assert (Hme : ws ∉ open_others (network s) (Some ws) (clients (this s))).
    { unfold open_others. rewrite list_elem_of_filter. intros [[Hne _] _]. by apply Hne. }
    split.
    + rewrite sent_to_app, sent_to_each_notin, app_nil_r by done.
      destruct (is_open (network s) ws); [|done]. by rewrite sent_to_one, decide_True.
    + intros c x Hc. rewrite sent_to_app, elem_of_app. intros [Hx|Hx].
      * destruct (is_open (network s) ws); [|by apply elem_of_nil in Hx].
        rewrite sent_to_one, decide_False in Hx by congruence. by apply elem_of_nil in Hx.
      * apply sent_to_each_elem in Hx. eauto.
  - by apply (one_reply_of_reply ws (ERROR FailedToStore)
                {| st_world := w'; storage := store'; this := this s; network := network s |}).
  - by apply (one_reply_of_reply ws (ERROR (ExceptionMessage (Thrown e)))
                {| st_world := w'; storage := store'; this := this s; network := network s |}).
Qed.

(** A capture that is not admitted leaves the store as it is and is
    answered with an error only: when the record fails validation the
    reply is [Failed to store element] and nothing at all has changed;
    when [add] throws the reply is the message of the exception, and
    the shared objects are as [add] left them: unchanged when it is
    [html] that made it throw, and with the attribute object redacted
    otherwise.  Nothing is announced. *)
Theorem refused_capture_leaves_store now ws element (i : prim) s :
  (add now element (st_world s) (storage s)).2 <> Ok true ->
  let s' := handleMessage now ws (Parsed (PString "ELEMENT_CAPTURED") element i) s in
  storage s' = storage s /\ this s' = this s /\
  readyState (network s') = readyState (network s) /\
  outbox (network s')
  = (outbox (network s) ++
     if is_open (network s) ws
     then [(ws, ERROR (if validateCapturedElement element
                       then ExceptionMessage (Thrown TypeError) else FailedToStore))]
     else [])%list /\
  timers (st_world s') = timers (st_world s) /\
  (validateCapturedElement element = false -> st_world s' = st_world s) /\
  (forall e, element = AObject e -> validateCapturedElement element = true ->
     objects (st_world s')
     = if html_throws e then objects (st_world s)
       else redact_step (objects (st_world s)) e).
Proof.
  intros Hadd s'. unfold s', handleMessage. rewrite decide_True by done.
  unfold handleElementCaptured.
  destruct (add_throws_or_rejects now element (st_world s) (storage s) Hadd)
    as [(Hs & Hv)|(e & -> & Hv & Hs)]; rewrite Hs, Hv; cbn [fst snd].
  - rewrite sendMessage_spec. cbn [with_network st_world storage this network
      readyState outbox]. split_and!; try done; by destruct s.
  - rewrite sendMessage_spec. cbn [with_network st_world storage this network
      readyState outbox objects timers]. split_and!; try done.
    by intros e' [= <-] _.
Qed.

Lemma refused_capture_leaves_store_witness :
  let element := AObject long_object_text in
  let s := serving_callers in
  let s' := handleMessage 0 1 (Parsed (PString "ELEMENT_CAPTURED") element PUndefined) s in
  (add 0 element (st_world s) (storage s)).2 <> Ok true /\
  storage s' = storage s /\
  outbox (network s') = [(1, ERROR (ExceptionMessage (Thrown TypeError)))] /\
  read (objects (st_world s)) 0 "data-token" = Some (VPrim (PString "abc")) /\
  read (objects (st_world s')) 0 "data-token" = Some (VPrim (PString "[REDACTED]")).
Proof.
  intros element s s'.
  assert (Hadd : (add 0 element (st_world s) (storage s)).2 <> Ok true)
    by (vm_compute; discriminate).
  split; [exact Hadd|].
  destruct (refused_capture_leaves_store 0 1 element PUndefined s Hadd)
    as (Hst & _ & _ & Hout & _ & _ & Hobj).
  split; [exact Hst|]. split; [exact Hout|]. split; [vm_compute; reflexivity|].
  unfold s'. rewrite (Hobj long_object_text eq_refl); [|vm_compute; reflexivity].
  vm_compute. reflexivity.
Defined.

End ws_protocol.

Section ws_lifecycle.
Import JsString Schema Storage Stats WebSocketServer Sample HandlerSample.
Implicit Types (n : net) (ws c : sock) (s : state).

Lemma tryPort_spec (bind : Z -> listen) (b : bool) (srv : server) (p : Z)
  (fallbackPorts : list Z) :
  let r := tryPort bind b srv p fallbackPorts in
  port r.1 = port srv /\ clients r.1 = clients srv /\
  exists before q after,
    p :: fallbackPorts = (before ++ q :: after)%list /\
    Forall (fun x => bind x = AddrInUse) before /\
    match bind q with
    | Throws =>
        wss r.1 = match last before with Some x => Some x | None => wss srv end /\
        r.2 = if b && bool_decide (before = []) then RejectedThrown else NeverSettled
    | Listening => wss r.1 = Some q /\ r.2 = Resolved q
    | AddrInUse => after = [] /\ wss r.1 = Some q /\ r.2 = RejectedAllPortsInUse
    | OtherError => wss r.1 = Some q /\ r.2 = RejectedError
    end.
Proof.
  revert b srv p. induction fallbackPorts as [|p' ps IH]; intros b srv p; simpl.
  - destruct (bind p) eqn:Hb; simpl; (split; [done|]; split; [done|]);
      exists [], p, []; rewrite Hb; repeat split; try done.
    by rewrite andb_true_r.
  - destruct (bind p) eqn:Hb; simpl.
    + split; [done|]; split; [done|]. exists [], p, (p' :: ps). rewrite Hb.
      repeat split; try done. by rewrite andb_true_r.
    + split; [done|]; split; [done|]. exists [], p, (p' :: ps). rewrite Hb. by repeat split.
    + destruct (IH false {| port := port srv; wss := Some p; clients := clients srv |} p')
        as (Hport & Hcl & before & q & after & Heq & Hall & Hr).
      split; [done|]; split; [done|].
      exists (p :: before), q, after. rewrite Heq. split; [done|].
      split; [by constructor|].
      destruct (bind q); try done.
      rewrite andb_false_r. destruct Hr as [Hw Hr]. split; [|done].
      rewrite Hw. simpl. destruct before as [|x before]; [done|].
      change (last (p :: x :: before)) with (last (x :: before)).
      destruct (last (x :: before)) eqn:Hl; [done | by apply last_None in Hl].
    + split; [done|]; split; [done|]. exists [], p, (p' :: ps). rewrite Hb. by repeat split.
Qed.

(** [start] tries the configured port and then 38101, 38102 and 38103,
    in this order, going on only when a port is in use.  At the first
    port [q] that is not in use: when the server listens the promise
    resolves with [q]; when the server emits another error the promise
    is rejected; when the constructor throws, the promise is rejected if
    [q] is the configured port and is never settled otherwise, and
    [this.wss] is left as it was, which is the server of the previous
    port if there is one.  When all four are in use the promise is
    rejected.  In every other case [this.wss] is the server made for
    the last port tried.  So [getStatus] reports the configured port,
    not the port in use, and it says [running] after [start] unless the
    server was not running and the constructor threw on the configured
    port: it says so also after a rejection. *)
Theorem start_tries_ports_in_order (bind : Z -> listen) (srv : server) :
  let r := start bind srv in
  clients r.1 = clients srv /\
  status_port (getStatus r.1) = port srv /\
  (exists before q after,
     port srv :: FALLBACK_PORTS = (before ++ q :: after)%list /\
     Forall (fun x => bind x = AddrInUse) before /\
     match bind q with
     | Throws =>
         wss r.1 = match last before with Some x => Some x | None => wss srv end /\
         r.2 = if bool_decide (before = []) then RejectedThrown else NeverSettled
     | Listening => wss r.1 = Some q /\ r.2 = Resolved q
     | AddrInUse => after = [] /\ wss r.1 = Some q /\ r.2 = RejectedAllPortsInUse
     | OtherError => wss r.1 = Some q /\ r.2 = RejectedError
     end) /\
  (bind (port srv) = Throws -> r = (srv, RejectedThrown)) /\
  (running (getStatus r.1) = true <-> is_Some (wss srv) \/ bind (port srv) <> Throws).
Proof.
  intros r. unfold r, start.
  destruct (tryPort_spec bind true srv (port srv) FALLBACK_PORTS)
    as (Hport & Hcl & before & q & after & Heq & Hall & Hr).
  split; [done|]. split; [done|]. split; [by exists before, q, after|].
  split; [unfold FALLBACK_PORTS; simpl; by intros ->|].
  unfold getStatus, running. rewrite bool_decide_eq_true.
  destruct before as [|x before].
  - injection Heq as <- _. destruct (bind (port srv)) eqn:Hb.
    + destruct Hr as [-> _]. simpl. split; [by left | by intros [?|?]].
    + destruct Hr as [-> _]. split; [by right | by eexists].
    + destruct Hr as (_ & -> & _). split; [by right | by eexists].
    + destruct Hr as [-> _]. split; [by right | by eexists].
  - injection Heq as <- _. apply Forall_cons in Hall as [Hx _].
    assert (Hsome : is_Some (wss (tryPort bind true srv (port srv) FALLBACK_PORTS).1)).
    { destruct (bind q).
      - destruct Hr as [-> _]. destruct (last (port srv :: before)) eqn:Hl; [by eexists|].
        by apply last_None in Hl.
      - destruct Hr as [-> _]. by eexists.
      - destruct Hr as (_ & -> & _). by eexists.
      - destruct Hr as [-> _]. by eexists. }
    split; [intros _; right; congruence | done].
Qed.

Lemma close_all_outbox (cs : list sock) n :
  outbox (foldl (fun n client => close client n) n cs) = outbox n.
Proof. revert n. induction cs as [|c cs IH]; intros n; simpl; [done|]. by rewrite IH. Qed.

Lemma close_lookup_ne ws c n :
  c <> ws -> readyState (close ws n) !! c = readyState n !! c.
Proof.
  intros Hne. unfold close. cbn [readyState].
  destruct (readyState n !! ws) as [[]|]; by rewrite ?lookup_insert_ne.
Qed.

Lemma close_not_open ws n : readyState (close ws n) !! ws <> Some OPEN.
Proof.
  unfold close. cbn [readyState].
  destruct (readyState n !! ws) as [[]|] eqn:Hws;
    rewrite ?lookup_insert_eq, ?Hws; congruence.
Qed.

Lemma close_keeps_not_open ws c n :
  readyState n !! c <> Some OPEN -> readyState (close ws n) !! c <> Some OPEN.
Proof.
  intros Hc. destruct (decide (c = ws)) as [->|Hne]; [apply close_not_open|].
  by rewrite close_lookup_ne.
Qed.

Lemma close_all_lookup (cs : list sock) c n :
  c ∉ cs ->
  readyState (foldl (fun n client => close client n) n cs) !! c = readyState n !! c.
Proof.
  revert n. induction cs as [|c' cs IH]; intros n; simpl; [done|].
  rewrite not_elem_of_cons. intros [Hne Hnin]. by rewrite IH, close_lookup_ne.
Qed.

Lemma close_all_keeps_not_open (cs : list sock) c n :
  readyState n !! c <> Some OPEN ->
  readyState (foldl (fun n client => close client n) n cs) !! c <> Some OPEN.
Proof.
  revert n. induction cs as [|c' cs IH]; intros n; simpl; [done|].
  intros Hc. by apply IH, close_keeps_not_open.
Qed.

Lemma close_all_not_open (cs : list sock) c n :
  c ∈ cs ->
  readyState (foldl (fun n client => close client n) n cs) !! c <> Some OPEN.
Proof.
  revert n. induction cs as [|c' cs IH]; intros n; simpl; [by intros ?%elem_of_nil|].
  intros [->|Hin]%elem_of_cons.
  - apply close_all_keeps_not_open, close_not_open.
  - by apply IH.
Qed.

(** [stop] on a server that was started: no client is left and the
    server is not running; none of the former clients is open any more,
    so that [sendMessage] to one of them sends nothing; the connections
    that were not clients are as before; nothing is sent, and the store
    is not touched (its timer keeps running).  A second [stop] does
    nothing. *)
Theorem stop_closes_every_client s :
  is_Some (wss (this s)) ->
  let s' := stop s in
  getStatus (this s') = {| running := false; status_port := port (this s);
                           status_clients := 0 |} /\
  st_world s' = st_world s /\ storage s' = storage s /\
  outbox (network s') = outbox (network s) /\
  (forall c m, c ∈ clients (this s) -> sendMessage c m (network s') = network s') /\
  (forall c, c ∉ clients (this s) ->
             readyState (network s') !! c = readyState (network s) !! c) /\
  stop s' = s'.
Proof.
  intros [p Hp] s'. unfold s', stop. rewrite Hp.
  cbn [this st_world storage network wss clients port].
  split; [done|]. split; [done|]. split; [done|].
  split; [apply close_all_outbox|]. split; [|split; [|done]].
  - intros c m Hc. unfold sendMessage, is_open.
    rewrite bool_decide_eq_false_2; [done|]. by apply close_all_not_open.
  - intros c Hc. by apply close_all_lookup.
Qed.

Lemma stop_closes_every_client_witness :
  is_Some (wss (this serving)) /\
  getStatus (this (stop serving))
  = {| running := false; status_port := 38100; status_clients := 0 |} /\
  sendMessage 3 ALL_CLEARED (network (stop serving)) = network (stop serving).
Proof.
  assert (H : is_Some (wss (this serving))) by (by eexists).
  split; [exact H|].
  destruct (stop_closes_every_client serving H) as (Hst & _ & _ & _ & Hsend & _).
  split; [exact Hst|].
  apply Hsend. change (3 ∈ [1; 2; 3]). do 2 right. left.
Defined.

Lemma handleMessage_this now ws data s : this (handleMessage now ws data s) = this s.
Proof.
  unfold handleMessage. destruct data as [| |type element i]; [done..|].
  repeat case_decide; try done.
  unfold handleElementCaptured.
  by destruct (add now element (st_world s) (storage s)) as [[w' store'] [[]|e]].
Qed.

(** The set of clients has no duplicate, whatever happens to the
    server. *)
Lemma ws_run_clients_NoDup s (evs : list ws_event) :
  NoDup (clients (this s)) -> NoDup (clients (this (ws_run s evs))).
Proof.
  unfold ws_run. revert s. induction evs as [|ev evs IH]; intros s Hnd; [done|].
  simpl. apply IH. destruct ev as [ws|now ws data|ws| |rs]; simpl.
  - by apply set_add_NoDup.
  - by rewrite handleMessage_this.
  - by apply NoDup_filter.
  - unfold stop. destruct (wss (this s)); [apply NoDup_nil_2 | done].
  - done.
Qed.

End ws_lifecycle.
